(** * Smart Interview Bot: scoring engine and session state machine

    A shallow embedding of [interview.py].  Python integers are [Z],
    [str] is [string], lists are [list] with Python's indexing rules
    written out ([getitem], [setitem]), and a call that may raise returns
    a [result], [float] is IEEE binary64 with its rounding.  The Tk widgets are kept only as far as the session reads
    or writes them: the per-slide feedback and hint variables, the
    progress variable, the state of the two navigation buttons, the
    subtitle of the summary slide and the message boxes shown.

    A [Raise] carries no state.  None is needed: a session only exists
    once [__init__] has returned, and [run_wf] below shows that no
    command raises in a state reached from there. *)

From Stdlib Require Import ZArith QArith Qabs Lia.
From Stdlib Require Import Floats.SpecFloat.
From stdpp Require Import base list strings numbers pretty.

Open Scope Z_scope.

(** ** Python runtime: exceptions, list indexing, string methods *)

Inductive exn : Set := IndexError | ValueError | ZeroDivisionError.

Inductive result (A : Type) : Type :=
| Ok (a : A)
| Raise (e : exn).
Arguments Ok {A} a.
Arguments Raise {A} e.

#[global] Instance result_ret : MRet result := λ A a, Ok a.
#[global] Instance result_bind : MBind result := λ A B k m,
  match m with
  | Ok a => k a
  | Raise e => Raise e
  end.

(** A [for] loop whose body may raise: [body] maps the loop state and
    the current item to the next loop state. *)
Fixpoint for_each {S B : Type} (body : S → B → result S) (s : S) (l : list B)
  : result S :=
  match l with
  | [] => Ok s
  | x :: l' => s' ← body s x; for_each body s' l'
  end.

(** [len(l)] *)
Definition len {A : Type} (l : list A) : Z := Z.of_nat (length l).

(** The position a Python index denotes: negative indices count from the
    end, anything outside [-len, len) is out of range. *)
Definition norm_index {A : Type} (l : list A) (i : Z) : option nat :=
  if 0 <=? i then
    if i <? len l then Some (Z.to_nat i) else None
  else
    if 0 <=? i + len l then Some (Z.to_nat (i + len l)) else None.

(** [l[i]] *)
Definition getitem {A : Type} (l : list A) (i : Z) : result A :=
  match norm_index l i with
  | Some n => match l !! n with Some x => Ok x | None => Raise IndexError end
  | None => Raise IndexError
  end.

(** [l[i] = x] *)
Definition setitem {A : Type} (l : list A) (i : Z) (x : A) : result (list A) :=
  match norm_index l i with
  | Some n => Ok (<[n := x]> l)
  | None => Raise IndexError
  end.

(** [range(n)] *)
Definition range (n : Z) : list Z := Z.of_nat <$> seq 0 (Z.to_nat n).

(** [sum(l)] *)
Definition sum (l : list Z) : Z := foldl Z.add 0 l.

(** Python's [float]: IEEE 754 binary64, round to nearest even. *)
Definition prec : Z := 53.
Definition emax : Z := 1024.

Definition float : Set := spec_float.

#[global] Instance float_eq_dec : EqDecision float.
Proof. solve_decision. Defined.

(** [float(z)] *)
Definition float_of_int (z : Z) : float := binary_normalize prec emax z 0 false.

(** [x / y] and [x * y] on floats (a zero divisor is tested before the
    division wherever Python would raise). *)
Definition fdiv (x y : float) : float := SFdiv prec emax x y.
Definition fmul (x y : float) : float := SFmul prec emax x y.



(** [sub in s] on [str]: [sub] occurs in [s] at some offset. *)
Fixpoint str_in (sub s : string) : bool :=
  if String.prefix sub s then true
  else match s with
       | EmptyString => false
       | String _ s' => str_in sub s'
       end.

(** What [str_in] decides. *)
Definition substring_of (sub s : string) : Prop :=
  ∃ pre post : string, s = pre +:+ sub +:+ post.

(** [str.lower] and [str.strip] are Unicode-aware methods of the Python
    runtime; the development is parametric in them. *)
Class PyStr : Type := {
  lower : string → string;
  strip : string → string
}.

(** An instance for computing: the two methods on 7-bit text. *)
Definition ascii_lower_char (c : Ascii.ascii) : Ascii.ascii :=
  let n := Ascii.nat_of_ascii c in
  if ((65 <=? n)%nat && (n <=? 90)%nat)%bool then Ascii.ascii_of_nat (n + 32) else c.

Fixpoint ascii_lower (s : string) : string :=
  match s with
  | EmptyString => EmptyString
  | String c s' => String (ascii_lower_char c) (ascii_lower s')
  end.

Definition is_space (c : Ascii.ascii) : bool :=
  let n := Ascii.nat_of_ascii c in
  ((n =? 32)%nat || ((9 <=? n)%nat && (n <=? 13)%nat))%bool.

Fixpoint lstrip (s : string) : string :=
  match s with
  | EmptyString => EmptyString
  | String c s' => if is_space c then lstrip s' else s
  end.

Definition ascii_strip (s : string) : string :=
  String.rev (lstrip (String.rev (lstrip s))).

Definition ascii_pystr : PyStr :=
  {| lower := ascii_lower; strip := ascii_strip |}.

(** ** Question bank *)

Record question : Set := { q : string; keywords : list string }.

#[global] Instance question_eq_dec : EqDecision question.
Proof. solve_decision. Defined.

Definition TECHNICAL_QUESTIONS : list question := [
  {| q := "What is the difference between list and tuple in Python?";
     keywords := ["mutable"; "immutable"] |};
  {| q := "Explain the concept of inheritance in OOP.";
     keywords := ["inheritance"; "base class"; "derived"; "subclass"] |};
  {| q := "What is the time complexity of binary search?";
     keywords := ["log"; "logarithmic"; "O(log n)"] |}
].

Definition HR_QUESTIONS : list question := [
  {| q := "Tell me about yourself.";
     keywords := ["student"; "experience"; "project"; "goal"] |};
  {| q := "What are your strengths and weaknesses?";
     keywords := ["strength"; "weakness"; "learning"] |};
  {| q := "Where do you see yourself in 5 years?";
     keywords := ["future"; "goal"; "career"] |}
].

Definition NUM_TECH : Z := 3.
Definition NUM_HR : Z := 2.

(** ** Scoring: [evaluate_answer] *)

Definition FB_NEEDS_IMPROVEMENT : string :=
  "Needs improvement — missing important points.".
Definition FB_GOOD : string :=
  "Good — some important points present, add more details.".
Definition FB_EXCELLENT : string :=
  "Excellent — covered expected points!".

Section Scoring.
Context `{PyStr}.

(** One round of the [for kw in keywords] loop. *)
Definition match_step (ans : string) (acc : Z * list string) (kw : string)
  : Z * list string :=
  let '(matched, matched_words) := acc in
  if str_in (lower kw) ans
  then (matched + 1, matched_words ++ [kw])
  else (matched, matched_words).

Definition evaluate_answer (answer : string) (kws : list string)
  : Z * string * list string :=
  let ans := lower answer in
  let '(matched, matched_words) := foldl (match_step ans) (0, []) kws in
  let fb :=
    if matched =? 0 then FB_NEEDS_IMPROVEMENT
    else if matched <? len kws then FB_GOOD
    else FB_EXCELLENT in
  (matched, fb, matched_words).
End Scoring.

(** ** Sampling and the session question list *)

Section Sampling.
Context {A : Type}.

(** [random.sample(population, k)] of the standard library, for a
    population of at most 21 items: [k] rounds, each moving one item of
    the shrinking pool to the result.  [rng i] is the raw value behind
    the [i]-th call of [randbelow]; [result[i] = pool[j]] is written as
    an append, the rounds filling the result from the left. *)
Definition sample_round (rng : nat → Z) (n : Z)
    (acc : list A * list A) (i : Z) : result (list A * list A) :=
  let '(res, pool) := acc in
  let j := rng (Z.to_nat i) `mod` (n - i) in
  x ← getitem pool j;
  y ← getitem pool (n - i - 1);
  pool' ← setitem pool j y;
  Ok (res ++ [x], pool').

Definition random_sample (rng : nat → Z) (population : list A) (k : Z)
  : result (list A) :=
  let n := len population in
  if (k <? 0) || (n <? k) then Raise ValueError
  else
    acc ← for_each (sample_round rng n) ([], population) (range k);
    Ok acc.1.

(** [random.sample(CATALOG, min(NUM, len(CATALOG)))], the expression of
    both sampling lines of [_prepare_questions]. *)
Definition sample (rng : nat → Z) (catalog : list A) (count : Z)
  : result (list A) :=
  random_sample rng catalog (Z.min count (len catalog)).
End Sampling.

(** One round of the interleaving loop. *)
Definition interleave_round (tech_sample hr_sample : list question)
    (combined : list (string * question)) (i : Z)
  : result (list (string * question)) :=
  combined ←
    (if i <? len tech_sample
     then t ← getitem tech_sample i; Ok (combined ++ [("Technical", t)])
     else Ok combined);
  if i <? len hr_sample
  then h ← getitem hr_sample i; Ok (combined ++ [("HR", h)])
  else Ok combined.

(** The interleaving loop of [_prepare_questions], from an empty
    [combined]. *)
Definition interleave (tech_sample hr_sample : list question)
  : result (list (string * question)) :=
  for_each (interleave_round tech_sample hr_sample) []
           (range (Z.max (len tech_sample) (len hr_sample))).

(** The second sample continues the random stream where the first one
    stopped. *)
Definition _prepare_questions (rng : nat → Z)
  : result (list (string * question)) :=
  tech_sample ← sample rng TECHNICAL_QUESTIONS NUM_TECH;
  hr_sample ← sample (λ i, rng (length tech_sample + i)%nat) HR_QUESTIONS NUM_HR;
  interleave tech_sample hr_sample.

(** Round-robin interleaving as the specification words it: a technical
    question then an HR question on each round, and the rest of the
    longer sample once the other is exhausted. *)
Fixpoint round_robin (tech hr : list question) : list (string * question) :=
  match tech, hr with
  | [], _ => (λ h, ("HR", h)) <$> hr
  | _, [] => (λ t, ("Technical", t)) <$> tech
  | t :: tech', h :: hr' => ("Technical", t) :: ("HR", h) :: round_robin tech' hr'
  end.

(** ** The application state *)

Record QuestionSlide : Set := {
  question_data : question;
  index : Z;
  total : Z;
  bg : string;
  fb_var : string;
  hint_var : string
}.

Record App : Set := {
  questions : list (string * question);
  current_idx : Z;
  slides : list QuestionSlide;
  answers : list string;
  scores : list Z;
  summary_sub : string;      (* summary_slide.lbl_sub *)
  progress_var : float;
  btn_prev : bool;           (* true: tk.NORMAL, false: tk.DISABLED *)
  btn_next : bool;
  dialogs : list string      (* message boxes shown, oldest first *)
}.

Definition colors : list string :=
  ["#0b6e4f"; "#f08a24"; "#0d6efd"; "#6f42c1"; "#198754"].

(** [enumerate(l, start)] *)
Fixpoint enumerate {A : Type} (start : Z) (l : list A) : list (Z * A) :=
  match l with
  | [] => []
  | x :: l' => (start, x) :: enumerate (start + 1) l'
  end.

Definition set_slides (v : list QuestionSlide) (s : App) : App :=
  {| questions := questions s; current_idx := current_idx s; slides := v;
     answers := answers s; scores := scores s; summary_sub := summary_sub s;
     progress_var := progress_var s; btn_prev := btn_prev s;
     btn_next := btn_next s; dialogs := dialogs s |}.

Definition set_summary_sub (v : string) (s : App) : App :=
  {| questions := questions s; current_idx := current_idx s; slides := slides s;
     answers := answers s; scores := scores s; summary_sub := v;
     progress_var := progress_var s; btn_prev := btn_prev s;
     btn_next := btn_next s; dialogs := dialogs s |}.

(** ** Slides and navigation *)

Definition build_slide (total : Z) (slides : list QuestionSlide)
    (item : Z * (string * question)) : result (list QuestionSlide) :=
  let '(idx, (sect, qdata)) := item in
  color ← getitem colors (idx `mod` len colors);
  Ok (slides ++ [{| question_data := qdata; index := idx; total := total;
                    bg := color; fb_var := ""; hint_var := "" |}]).

Definition _build_slides (s : App) : result App :=
  let total := len (questions s) in
  slides' ← for_each (build_slide total) (slides s) (enumerate 1 (questions s));
  Ok (set_summary_sub "Your detailed summary will appear here."
        (set_slides slides' s)).

(** [idx / n] on two integers: ZeroDivisionError for [n = 0], else the
    float nearest to the quotient.  Python rounds the exact quotient
    once; for operands below 2^53, as indices and list lengths are, that
    is the quotient of the two operands converted first, as written
    here. *)
Definition truediv (idx n : Z) : result float :=
  if n =? 0 then Raise ZeroDivisionError
  else Ok (fdiv (float_of_int idx) (float_of_int n)).

Definition _show_slide (idx : Z) (s : App) : result App :=
  frac ← truediv idx (len (slides s));
  let percent := fmul frac (float_of_int 100) in
  Ok {| questions := questions s; current_idx := idx; slides := slides s;
        answers := answers s; scores := scores s; summary_sub := summary_sub s;
        progress_var := percent;
        btn_prev := 0 <? idx;
        btn_next := idx <? len (slides s);
        dialogs := dialogs s |}.

Definition NL : string := String (Ascii.ascii_of_nat 10) "".

Definition set_feedback (text : string) (sl : QuestionSlide) : QuestionSlide :=
  {| question_data := question_data sl; index := index sl; total := total sl;
     bg := bg sl; fb_var := text; hint_var := hint_var sl |}.

Definition set_hint (text : string) (sl : QuestionSlide) : QuestionSlide :=
  {| question_data := question_data sl; index := index sl; total := total sl;
     bg := bg sl; fb_var := fb_var sl; hint_var := text |}.

(** The per-section tallies of the summary: a [dict] in insertion order,
    each value the [{'score': _, 'possible': _}] dict of the source. *)
Record tally : Set := { score : Z; possible : Z }.

(** [d.setdefault(k, v)], for its effect on [d]. *)
Fixpoint setdefault (d : list (string * tally)) (k : string) (v : tally)
  : list (string * tally) :=
  match d with
  | [] => [(k, v)]
  | (k', v') :: d' =>
      if decide (k = k') then d else (k', v') :: setdefault d' k v
  end.

(** [d[k][field] += x] as a change [f] of the value under [k]; the key is
    present wherever the source does this, [setdefault] having just run. *)
Fixpoint alter_key (f : tally → tally) (k : string) (d : list (string * tally))
  : list (string * tally) :=
  match d with
  | [] => []
  | (k', v') :: d' =>
      if decide (k = k') then (k', f v') :: d' else (k', v') :: alter_key f k d'
  end.

Definition add_score (x : Z) (t : tally) : tally :=
  {| score := score t + x; possible := possible t |}.

Definition add_possible (x : Z) (t : tally) : tally :=
  {| score := score t; possible := possible t + x |}.

Section Session.
Context `{PyStr}.

(** [ans] is what [slide.get_answer()] returns at the call: the text of
    the slide's entry widget, stripped by the slide. *)
Definition evaluate_current (ans : string) (s : App) : result App :=
  if len (slides s) <=? current_idx s then Ok s
  else
    slide ← getitem (slides s) (current_idx s);
    answers' ← setitem (answers s) (current_idx s) ans;
    let '(matched, feedback, matched_words) :=
      evaluate_answer ans (keywords (question_data slide)) in
    scores' ← setitem (scores s) (current_idx s) matched;
    let slide := set_feedback feedback slide in
    let slide :=
      match matched_words with
      | [] => set_hint "" slide
      | _ => set_hint ("Matched keywords: " +:+ String.concat ", " matched_words) slide
      end in
    slides' ← setitem (slides s) (current_idx s) slide;
    Ok {| questions := questions s; current_idx := current_idx s;
          slides := slides'; answers := answers'; scores := scores';
          summary_sub := summary_sub s; progress_var := progress_var s;
          btn_prev := btn_prev s; btn_next := btn_next s;
          dialogs := dialogs s ++ ["Feedback:" +:+ NL +:+ feedback] |}.

(** One round of the section loop of [_show_summary]. *)
Definition tally_round (scores : list Z) (section_wise : list (string * tally))
    (item : Z * (string * question)) : result (list (string * tally)) :=
  let '(i, (sect, qdata)) := item in
  let section_wise := setdefault section_wise sect {| score := 0; possible := 0 |} in
  sc ← getitem scores i;
  let section_wise := alter_key (add_score sc) sect section_wise in
  Ok (alter_key (add_possible (len (keywords qdata))) sect section_wise).

(** The figures of the summary: total score, total keywords and the
    per-section tallies. *)
Definition summary_totals (s : App) : result (Z * Z * list (string * tally)) :=
  let total_keywords := sum ((λ qu, len (keywords qu.2)) <$> questions s) in
  let total_score := sum (scores s) in
  section_wise ← for_each (tally_round (scores s)) [] (enumerate 0 (questions s));
  Ok (total_score, total_keywords, section_wise).

(** One round of the per-question loop of [_show_summary]. *)
Definition detail_round (s : App) (lines : list string)
    (item : Z * (string * question)) : result (list string) :=
  let '(i, (sect, qdata)) := item in
  a ← getitem (answers s) i;
  let ans := if decide (strip a = "") then "(No answer)" else strip a in
  matched ← getitem (scores s) i;
  let possible := len (keywords qdata) in
  Ok (lines ++
        ["Q" +:+ pretty (i + 1) +:+ " (" +:+ sect +:+ "): " +:+ q qdata;
         "  Your answer: " +:+ ans;
         "  Score: " +:+ pretty matched +:+ " / " +:+ pretty possible;
         ""]).

Definition _show_summary (s : App) : result App :=
  totals ← summary_totals s;
  let '(total_score, total_keywords, section_wise) := totals in
  let lines :=
    ["Total Score: " +:+ pretty total_score +:+ " / " +:+ pretty total_keywords;
     ""] in
  let lines :=
    foldl (λ lines item,
             lines ++ [item.1 +:+ " Score: " +:+ pretty (score item.2)
                         +:+ " / " +:+ pretty (possible item.2)])
          lines section_wise in
  let lines := lines ++ [""; "Detailed answers and feedback:"] in
  lines ← for_each (detail_round s) lines (enumerate 0 (questions s));
  let summary_text := String.concat NL lines in
  _show_slide (len (slides s)) (set_summary_sub summary_text s).

Definition next_slide (ans : string) (s : App) : result App :=
  s ← evaluate_current ans s;
  if current_idx s <? len (slides s) - 1
  then _show_slide (current_idx s + 1) s
  else _show_summary s.

Definition prev_slide (s : App) : result App :=
  if 0 <? current_idx s
  then _show_slide (current_idx s - 1) s
  else Ok s.

(** [__init__] once [self.questions] is set. *)
Definition start (qs : list (string * question)) : result App :=
  let s :=
    {| questions := qs; current_idx := 0; slides := [];
       answers := replicate (length qs) "";
       scores := replicate (length qs) 0;
       summary_sub := ""; progress_var := float_of_int 0;
       btn_prev := true; btn_next := true; dialogs := [] |} in
  s ← _build_slides s;
  _show_slide 0 s.

Definition __init__ (rng : nat → Z) : result App :=
  qs ← _prepare_questions rng;
  start qs.

(** The three commands bound to the footer buttons.  A session is any
    state reached by them from [start] on some question list; the
    sessions of [__init__] are among these. *)
Inductive op : Set :=
| Submit (ans : string)     (* evaluate_current *)
| Next (ans : string)       (* next_slide *)
| Prev.                     (* prev_slide *)

Definition run (o : op) (s : App) : result App :=
  match o with
  | Submit ans => evaluate_current ans s
  | Next ans => next_slide ans s
  | Prev => prev_slide s
  end.

Inductive reachable : App → Prop :=
| reachable_start qs s : start qs = Ok s → reachable s
| reachable_step o s s' : reachable s → run o s = Ok s' → reachable s'.

(** Number of questions, and the position as a fraction of it: the
    [idx / len(self.slides)] of [_show_slide] at the current index. *)
Definition N (s : App) : Z := len (questions s).


(** The stored answer, score, feedback and hint of question [i]. *)
Definition answer_record (s : App) (i : nat)
  : option (string * Z * string * string) :=
  a ← answers s !! i;
  m ← scores s !! i;
  sl ← slides s !! i;
  Some (a, m, fb_var sl, hint_var sl).
End Session.

(** The loop invariant of [random_sample] before round [i]: the items
    picked so far, together with the live part of the pool, are a
    rearrangement of the population. *)
Definition sample_inv {A : Type} (population : list A) (i : nat)
    (acc : list A * list A) : Prop :=
  length acc.2 = length population ∧ length acc.1 = i
  ∧ acc.1 ++ take (length population - i) acc.2 ≡ₚ population.

(** The invariant of the session: the position is a question index or
    the summary position, there is at least one question, one slide per
    question carrying that question, one answer and one score per
    question, and the progress variable and the navigation buttons are
    those of the current position. *)
Record wf (s : App) : Prop := {
  wf_idx : 0 ≤ current_idx s ≤ len (questions s);
  wf_nonempty : 0 < len (questions s);
  wf_slides : question_data <$> slides s = (questions s).*2;
  wf_answers : len (answers s) = len (questions s);
  wf_scores : len (scores s) = len (questions s);
  wf_progress :
    progress_var s
    = fmul (fdiv (float_of_int (current_idx s)) (float_of_int (len (slides s))))
           (float_of_int 100);
  wf_prev : btn_prev s = (0 <? current_idx s);
  wf_next : btn_next s = (current_idx s <? len (slides s))
}.

(** What [evaluate_current] leaves on the slide of an answered question:
    the feedback and hint lines of its body. *)
Definition evaluated_slide `{PyStr} (ans : string) (sl : QuestionSlide)
  : QuestionSlide :=
  let '(matched, feedback, matched_words) :=
    evaluate_answer ans (keywords (question_data sl)) in
  let slide := set_feedback feedback sl in
  match matched_words with
  | [] => set_hint "" slide
  | _ => set_hint ("Matched keywords: " +:+ String.concat ", " matched_words) slide
  end.

(** The section loop of the summary on a question paired with its score. *)
Definition tally_step (d : list (string * tally)) (it : string * question * Z)
  : list (string * tally) :=
  alter_key (add_possible (len (keywords it.1.2))) it.1.1
    (alter_key (add_score it.2) it.1.1
       (setdefault d it.1.1 {| score := 0; possible := 0 |})).

(** [d.get(k)] *)
Fixpoint dict_get (d : list (string * tally)) (k : string) : option tally :=
  match d with
  | [] => None
  | (k', v) :: d' => if decide (k = k') then Some v else dict_get d' k
  end.

(** The empty tally, and the section and keyword count of a scored
    question. *)
Definition zero_tally : tally := {| score := 0; possible := 0 |}.

Definition item_category (it : string * question * Z) : string := it.1.1.
Definition item_possible (it : string * question * Z) : Z := len (keywords it.1.2).

(** The distinct items of a list in order of first occurrence. *)
Definition first_seen (l : list string) : list string :=
  reverse (remove_dups (reverse l)).

(** Score and possible score of one section, from the questions and the
    stored scores. *)
Definition section_score (c : string) (s : App) : Z :=
  sum ((λ it, it.2) <$> filter (λ it, it.1.1 = c) (zip (questions s) (scores s))).

Definition section_possible (c : string) (s : App) : Z :=
  sum ((λ qu, len (keywords qu.2)) <$> filter (λ qu, qu.1 = c) (questions s)).

(** The hint line for a list of matched keywords. *)
Definition hint_text (matched_words : list string) : string :=
  match matched_words with
  | [] => ""
  | _ => "Matched keywords: " +:+ String.concat ", " matched_words
  end.

(** ** The text of the summary, from its figures *)

(** The line of one section. *)
Definition section_line (item : string * tally) : string :=
  item.1 +:+ " Score: " +:+ pretty (score item.2) +:+ " / "
    +:+ pretty (possible item.2).

(** The four lines of question [i] (counted from 0) with stored answer
    [a] and stored score [m]. *)
Definition detail_lines `{PyStr} (i : Z) (sect : string) (qd : question)
    (a : string) (m : Z) : list string :=
  ["Q" +:+ pretty (i + 1) +:+ " (" +:+ sect +:+ "): " +:+ q qd;
   "  Your answer: " +:+ (if decide (strip a = "") then "(No answer)" else strip a);
   "  Score: " +:+ pretty m +:+ " / " +:+ pretty (len (keywords qd));
   ""].

Fixpoint detail_rows `{PyStr} (i : Z) (qs : list (string * question))
    (ans : list string) (scs : list Z) : list string :=
  match qs, ans, scs with
  | (sect, qd) :: qs', a :: ans', m :: scs' =>
      detail_lines i sect qd a m ++ detail_rows (i + 1) qs' ans' scs'
  | _, _, _ => []
  end.

(** The report for a total score, a total of possible points, the
    per-section tallies and the per-question lines. *)
Definition report_text (total_score total_keywords : Z)
    (section_wise : list (string * tally)) (rows : list string) : string :=
  String.concat NL
    (["Total Score: " +:+ pretty total_score +:+ " / " +:+ pretty total_keywords;
      ""]
     ++ (section_line <$> section_wise)
     ++ [""; "Detailed answers and feedback:"]
     ++ rows).

(** ** What a command does to the stored records *)

(** A command that stores nothing. *)
Definition unchanged (s s' : App) : Prop :=
  answers s' = answers s ∧ scores s' = scores s ∧ slides s' = slides s
  ∧ dialogs s' = dialogs s.

(** A command that stores the evaluation of [ans] at the current index
    and shows its feedback. *)
Definition answered `{PyStr} (ans : string) (s s' : App) : Prop :=
  ∃ sl, current_idx s < N s
    ∧ slides s !! Z.to_nat (current_idx s) = Some sl
    ∧ slides s' = <[Z.to_nat (current_idx s) := evaluated_slide ans sl]> (slides s)
    ∧ answers s' = <[Z.to_nat (current_idx s) := ans]> (answers s)
    ∧ scores s'
      = <[Z.to_nat (current_idx s) :=
            (evaluate_answer ans (keywords (question_data sl))).1.1]> (scores s)
    ∧ dialogs s'
      = dialogs s ++ ["Feedback:" +:+ NL +:+
                        (evaluate_answer ans (keywords (question_data sl))).1.2].

(** Every question is either untouched (empty answer, score 0, no
    feedback, no hint) or carries the evaluation of its stored answer. *)
Definition records_consistent `{PyStr} (s : App) : Prop :=
  ∀ i sect qd a m sl,
    questions s !! i = Some (sect, qd) → answers s !! i = Some a →
    scores s !! i = Some m → slides s !! i = Some sl →
    (a = "" ∧ m = 0 ∧ fb_var sl = "" ∧ hint_var sl = "")
    ∨ (m = (evaluate_answer a (keywords qd)).1.1
       ∧ fb_var sl = (evaluate_answer a (keywords qd)).1.2
       ∧ hint_var sl = hint_text (evaluate_answer a (keywords qd)).2).

(** Slide [i] is the slide [_build_slides] made for question [i]: its
    number is [i + 1], its total the number of questions, its colour the
    palette entry at [(i + 1) % 5]. *)
Definition slides_laid_out (s : App) : Prop :=
  ∀ i sl, slides s !! i = Some sl →
    index sl = Z.of_nat i + 1 ∧ total sl = N s
    ∧ getitem colors ((Z.of_nat i + 1) `mod` len colors) = Ok (bg sl)
    ∧ ∃ sect, questions s !! i = Some (sect, question_data sl).


(** ** The progress fraction, position by position *)

(** [idx / n] for a position [idx] of [n] questions. *)
Definition fraction (idx n : Z) : float :=
  fdiv (float_of_int idx) (float_of_int n).



(** ** Example sessions

    A fixed random stream, the session [__init__] starts from it on
    7-bit text, and the states that session reaches by a list of
    commands. *)
Definition rng0 (i : nat) : Z := Z.of_nat (7 * i + 3).

Definition run_all `{PyStr} (ops : list op) (s : App) : result App :=
  for_each (λ s o, run o s) s ops.

Definition blank : App :=
  {| questions := []; current_idx := 0; slides := []; answers := [];
     scores := []; summary_sub := ""; progress_var := float_of_int 0;
     btn_prev := true; btn_next := true; dialogs := [] |}.

Definition demo_run (ops : list op) : result App :=
  s ← __init__ rng0; @run_all ascii_pystr ops s.

Definition demo_state (ops : list op) : App :=
  match demo_run ops with
  | Ok s => s
  | Raise _ => blank
  end.

Definition demo_first : App := demo_state [].

Definition demo_second : App := demo_state [Next "Lists are mutable"].

Definition demo_summary : App :=
  demo_state [Next "Lists are mutable";
              Next "I am a student with project experience";
              Next ""; Next ""; Next ""].

(** The two-question session of the specification's example. *)
Definition two_questions : list (string * question) :=
  [("Technical", {| q := "What is the difference between list and tuple in Python?";
                    keywords := ["mutable"; "immutable"] |});
   ("HR", {| q := "What are your strengths and weaknesses?";
             keywords := ["strength"; "weakness"; "learning"] |})].

(** * Properties *)

(** ** Runtime lemmas *)

Lemma append_nil_l (s : string) : "" +:+ s = s.
Proof. reflexivity. Qed.

Lemma append_cons_l (c : Ascii.ascii) (a s : string) :
  String c a +:+ s = String c (a +:+ s).
Proof. reflexivity. Qed.

Lemma string_prefix_spec (a b : string) :
  String.prefix a b = true ↔ ∃ post, b = a +:+ post.
Proof.
  revert b. induction a as [|c a IH]; intros b.
  - split; [intros _; by exists b | intros _; by destruct b].
  - destruct b as [|d b].
    + split; [done | intros [post Hpost]; discriminate].
    + cbn [String.prefix]. setoid_rewrite append_cons_l.
      destruct (Ascii.ascii_dec c d) as [->|Hne].
      * rewrite IH. split; intros [post Hpost]; exists post; congruence.
      * split; [done | intros [post Hpost]; congruence].
Qed.

Lemma str_in_spec (sub s : string) :
  str_in sub s = true ↔ substring_of sub s.
Proof.
  unfold substring_of. induction s as [|c s IH]; cbn [str_in].
  - destruct (String.prefix sub "") eqn:Hp.
    + apply string_prefix_spec in Hp as [post Hpost].
      split; [intros _; by exists "", post | done].
    + split; [done |]. intros (pre & post & Heq).
      destruct pre; [|discriminate]. rewrite append_nil_l in Heq.
      assert (String.prefix sub "" = true) as Hp'
        by (apply string_prefix_spec; by exists post).
      congruence.
  - destruct (String.prefix sub (String c s)) eqn:Hp.
    + apply string_prefix_spec in Hp as [post Hpost].
      split; [intros _; by exists "", post | done].
    + rewrite IH. split.
      * intros (pre & post & ->). by exists (String c pre), post.
      * intros (pre & post & Heq). destruct pre as [|d pre].
        -- rewrite append_nil_l in Heq.
           assert (String.prefix sub (String c s) = true) as Hp'
             by (apply string_prefix_spec; by exists post).
           congruence.
        -- rewrite append_cons_l in Heq. exists pre, post. congruence.
Qed.

#[global] Instance substring_of_dec (sub s : string) : Decision (substring_of sub s).
Proof.
  destruct (str_in sub s) eqn:Hin.
  - left. by apply str_in_spec.
  - right. intros Hs. apply str_in_spec in Hs. congruence.
Defined.

Lemma len_app {A : Type} (l1 l2 : list A) : len (l1 ++ l2) = len l1 + len l2.
Proof. unfold len. rewrite length_app. lia. Qed.

Lemma len_nonneg {A : Type} (l : list A) : 0 ≤ len l.
Proof. unfold len. lia. Qed.

Lemma feedback_texts_distinct :
  FB_NEEDS_IMPROVEMENT ≠ FB_GOOD ∧ FB_NEEDS_IMPROVEMENT ≠ FB_EXCELLENT
  ∧ FB_GOOD ≠ FB_EXCELLENT.
Proof. repeat split; discriminate. Qed.

(** ** Scoring *)

Section ScoringFacts.
Context `{PyStr}.

(** The keyword loop, from any intermediate state. *)
Lemma match_loop (ans : string) (kws : list string) (m : Z) (ws : list string) :
  foldl (match_step ans) (m, ws) kws
  = (m + len (filter (λ kw, substring_of (lower kw) ans) kws),
     ws ++ filter (λ kw, substring_of (lower kw) ans) kws).
Proof.
  revert m ws. induction kws as [|kw kws IH]; intros m ws; simpl.
  - rewrite app_nil_r. f_equal. unfold len. simpl. lia.
  - destruct (str_in (lower kw) ans) eqn:Hin; rewrite IH.
    + rewrite filter_cons_True by (by apply str_in_spec).
      rewrite <- app_assoc. simpl. f_equal. unfold len. simpl. lia.
    + rewrite filter_cons_False; [done |].
      intros Hs. apply str_in_spec in Hs. congruence.
Qed.

Lemma evaluate_answer_unfold (answer : string) (kws : list string) :
  let hits := filter (λ kw, substring_of (lower kw) (lower answer)) kws in
  evaluate_answer answer kws
  = (len hits,
     if len hits =? 0 then FB_NEEDS_IMPROVEMENT
     else if len hits <? len kws then FB_GOOD else FB_EXCELLENT,
     hits).
Proof.
  simpl. unfold evaluate_answer. rewrite match_loop. simpl. done.
Qed.

(** C1: [evaluate_answer] counts the keywords whose lowercased form is a
    substring of the lowercased answer, one per entry of the keyword
    list (duplicates included), returns exactly those entries in list
    order, and the count lies between 0 and the number of keywords. *)
Theorem evaluate_answer_counts_matches (answer : string) (kws : list string) :
  let hit := λ kw, substring_of (lower kw) (lower answer) in
  (evaluate_answer answer kws).1.1 = len (filter hit kws)
  ∧ (evaluate_answer answer kws).2 = filter hit kws
  ∧ 0 ≤ (evaluate_answer answer kws).1.1 ≤ len kws.
Proof.
  intros hit. rewrite evaluate_answer_unfold. simpl. fold hit.
  repeat split; [apply len_nonneg |].
  unfold len. pose proof (length_filter hit kws). lia.
Qed.

(** C2: the feedback is "Needs improvement" (tier None) exactly when
    nothing matched; otherwise it is "Excellent" (tier Full) when the
    count equals the number of keywords, and "Good" (tier Partial) in
    the remaining case, which is the case 0 < count < len(keywords).
    Read as three separate equivalences this holds for every non-empty
    keyword list; with no keyword at all the first case applies. *)
Theorem feedback_tier_by_match_count (answer : string) (kws : list string) :
  let m := (evaluate_answer answer kws).1.1 in
  let fb := (evaluate_answer answer kws).1.2 in
  fb = (if m =? 0 then FB_NEEDS_IMPROVEMENT
        else if m =? len kws then FB_EXCELLENT else FB_GOOD)
  ∧ (fb = FB_NEEDS_IMPROVEMENT ↔ m = 0)
  ∧ (m ≠ 0 → (fb = FB_EXCELLENT ↔ m = len kws))
  ∧ (fb = FB_GOOD ↔ 0 < m < len kws)
  ∧ (kws ≠ [] →
     (fb = FB_NEEDS_IMPROVEMENT ↔ m = 0)
     ∧ (fb = FB_EXCELLENT ↔ m = len kws)
     ∧ (fb = FB_GOOD ↔ 0 < m < len kws)).
Proof.
  pose proof feedback_texts_distinct as (Hng & Hne & Hge).
  pose proof (evaluate_answer_counts_matches answer kws) as (_ & _ & Hb).
  rewrite evaluate_answer_unfold in *. simpl in *.
  set (m := len (filter _ kws)) in *.
  assert (kws ≠ [] → 0 < len kws) as Hpos
    by (intros Hk; destruct kws; [done | unfold len; simpl; lia]).
  destruct (Z.eqb_spec m 0) as [H0|H0];
    [|destruct (Z.ltb_spec m (len kws)) as [Hlt|Hge'];
      destruct (Z.eqb_spec m (len kws)) as [Heq|Hneq]; try lia];
    split_and!; try done; try lia; intros;
      try (split; intros; try lia; try done; exfalso; (congruence || lia)).
  all: try (specialize (Hpos ltac:(done)));
    split_and!; split; intros; try lia; try done; exfalso; (congruence || lia).
Qed.
End ScoringFacts.

(** ** Indexing and loops *)

Lemma bind_Ok {A B : Type} (m : result A) (k : A → result B) (b : B) :
  m ≫= k = Ok b ↔ ∃ a, m = Ok a ∧ k a = Ok b.
Proof.
  destruct m as [a|e]; simpl; split.
  - intros Hk. by exists a.
  - intros (a' & [= <-] & Hk). done.
  - done.
  - intros (a' & [=] & _).
Qed.

Lemma norm_index_in_range {A : Type} (l : list A) (i : Z) :
  0 ≤ i < len l → norm_index l i = Some (Z.to_nat i).
Proof.
  intros Hi. unfold norm_index.
  destruct (Z.leb_spec 0 i); [|lia]. destruct (Z.ltb_spec i (len l)); [done | lia].
Qed.

Lemma getitem_in_range {A : Type} (l : list A) (i : Z) :
  0 ≤ i < len l → ∃ x, getitem l i = Ok x ∧ l !! Z.to_nat i = Some x.
Proof.
  intros Hi. unfold getitem. rewrite norm_index_in_range by done.
  destruct (lookup_lt_is_Some_2 l (Z.to_nat i)) as [x Hx]; [unfold len in Hi; lia |].
  exists x. by rewrite Hx.
Qed.

Lemma getitem_lookup {A : Type} (l : list A) (i : nat) (x : A) :
  l !! i = Some x → getitem l (Z.of_nat i) = Ok x.
Proof.
  intros Hx. pose proof (lookup_lt_Some _ _ _ Hx) as Hlt.
  destruct (getitem_in_range l (Z.of_nat i)) as (y & Hy & Hly); [unfold len; lia |].
  rewrite Nat2Z.id in Hly. congruence.
Qed.

Lemma setitem_in_range {A : Type} (l : list A) (i : Z) (x : A) :
  0 ≤ i < len l → setitem l i x = Ok (<[Z.to_nat i := x]> l).
Proof. intros Hi. unfold setitem. by rewrite norm_index_in_range. Qed.

Lemma len_insert {A : Type} (l : list A) (i : nat) (x : A) :
  len (<[i := x]> l) = len l.
Proof. unfold len. by rewrite length_insert. Qed.

Lemma range_unfold (n : Z) : range n = Z.of_nat <$> seq 0 (Z.to_nat n).
Proof. done. Qed.

(** ** Sampling *)

Section SamplingFacts.
Context {A : Type}.
Implicit Types (l pool res population : list A).

(** Overwriting position [j] with [y] trades the old item for [y]. *)
Lemma insert_swap_perm l (j : nat) (x y : A) :
  l !! j = Some x → x :: <[j := y]> l ≡ₚ y :: l.
Proof.
  intros Hj. pose proof (lookup_lt_Some _ _ _ Hj) as Hlt.
  rewrite insert_take_drop by done.
  rewrite <- (take_drop_middle l j x Hj) at 3.
  rewrite <- !Permutation_middle. apply perm_swap.
Qed.

(** One round keeps "result plus live pool" a rearrangement of the
    population. *)
Lemma sample_round_perm pool (m j : nat) (x y : A) :
  (j < m)%nat → (m ≤ length pool)%nat →
  pool !! j = Some x → pool !! (m - 1)%nat = Some y →
  x :: take (m - 1) (<[j := y]> pool) ≡ₚ take m pool.
Proof.
  intros Hj Hm Hx Hy.
  assert (take m pool = take (m - 1) pool ++ [y]) as ->.
  { replace m with (S (m - 1)) at 1 by lia. by erewrite take_S_r. }
  destruct (decide (j = (m - 1)%nat)) as [->|Hne].
  - rewrite take_insert_ge by lia. assert (x = y) as -> by congruence.
    by rewrite Permutation_cons_append.
  - rewrite take_insert_lt by lia.
    rewrite insert_swap_perm by (rewrite lookup_take_lt by lia; done).
    by rewrite Permutation_cons_append.
Qed.

Lemma sample_round_inv (rng : nat → Z) population (i : nat) acc :
  (i < length population)%nat → sample_inv population i acc →
  ∃ acc', sample_round rng (len population) acc (Z.of_nat i) = Ok acc'
          ∧ sample_inv population (S i) acc'.
Proof.
  destruct acc as [res pool]. intros Hi (Hpool & Hres & Hperm). simpl in *.
  unfold sample_round.
  set (n := len population). set (j := rng _ `mod` _).
  assert (0 ≤ j < n - Z.of_nat i) as Hj
    by (apply Z.mod_pos_bound; unfold n, len; lia).
  assert (len pool = n) as Hlen by (unfold n, len; lia).
  destruct (getitem_in_range pool j) as (x & -> & Hx); [lia |].
  cbn [mbind result_bind].
  destruct (getitem_in_range pool (n - Z.of_nat i - 1)) as (y & -> & Hy); [lia |].
  cbn [mbind result_bind].
  rewrite setitem_in_range by lia. cbn [mbind result_bind].
  eexists; split; [done |]. repeat split; simpl.
  - by rewrite length_insert.
  - rewrite length_app. simpl. lia.
  - rewrite <- app_assoc. etrans; [|exact Hperm].
    apply Permutation_app_head. simpl.
    replace (length population - S i)%nat with ((length population - i) - 1)%nat by lia.
    apply sample_round_perm; [unfold n, len in *; lia | lia | done |].
    rewrite <- Hy. f_equal. unfold n, len. lia.
Qed.

Lemma sample_loop_inv (rng : nat → Z) population (c i : nat) acc :
  (i + c ≤ length population)%nat → sample_inv population i acc →
  ∃ acc', for_each (sample_round rng (len population)) acc
                   (Z.of_nat <$> seq i c) = Ok acc'
          ∧ sample_inv population (i + c) acc'.
Proof.
  revert i acc. induction c as [|c IH]; intros i acc Hic Hinv; simpl.
  - exists acc. by rewrite Nat.add_0_r.
  - destruct (sample_round_inv rng population i acc) as (acc1 & -> & Hinv1);
      [lia | done |]. simpl.
    destruct (IH (S i) acc1) as (acc' & Hloop & Hinv'); [lia | done |].
    exists acc'. split; [done |]. by replace (i + S c)%nat with (S i + c)%nat by lia.
Qed.

Lemma random_sample_ok (rng : nat → Z) population (k : Z) :
  0 ≤ k ≤ len population →
  ∃ picked rest, random_sample rng population k = Ok picked
                 ∧ len picked = k ∧ picked ++ rest ≡ₚ population.
Proof.
  intros Hk. unfold random_sample.
  destruct (Z.ltb_spec k 0); [lia |]. destruct (Z.ltb_spec (len population) k); [lia |].
  simpl. rewrite range_unfold.
  destruct (sample_loop_inv rng population (Z.to_nat k) 0 ([], population))
    as ([res pool] & -> & Hpool & Hres & Hperm).
  - unfold len in Hk. lia.
  - unfold sample_inv. simpl. by rewrite Nat.sub_0_r, firstn_all.
  - simpl in *. exists res, (take (length population - Z.to_nat k) pool).
    split; [done |]. split; [unfold len; lia | done].
Qed.

Lemma random_sample_too_many (rng : nat → Z) population (k : Z) :
  len population < k → random_sample rng population k = Raise ValueError.
Proof.
  intros Hk. unfold random_sample.
  destruct (Z.ltb_spec (len population) k); [|lia]. by rewrite orb_true_r.
Qed.

(** C6 (as the code has it): for a non-negative count, sampling a
    catalog never fails; it returns [min(count, len(catalog))] items
    drawn without replacement (the items picked, together with the
    ones left, are a rearrangement of the catalog, so they are distinct
    when the catalog's entries are), the count being clamped to the
    catalog size when it exceeds it. *)
Theorem sample_clamps_to_catalog (rng : nat → Z) (catalog : list A) (count : Z) :
  0 ≤ count →
  ∃ picked rest,
    sample rng catalog count = Ok picked
    ∧ len picked = Z.min count (len catalog)
    ∧ picked ++ rest ≡ₚ catalog
    ∧ (NoDup catalog → NoDup picked).
Proof.
  intros Hc. unfold sample.
  destruct (random_sample_ok rng catalog (Z.min count (len catalog)))
    as (picked & rest & Hs & Hlen & Hperm).
  { pose proof (len_nonneg catalog). lia. }
  exists picked, rest. repeat split; try done.
  intros Hnd. rewrite <- Hperm in Hnd. by apply NoDup_app in Hnd as (? & _ & _).
Qed.
End SamplingFacts.

(** ** Interleaving *)

Lemma round_robin_nil_r (tech : list question) :
  round_robin tech [] = (λ t, ("Technical", t)) <$> tech.
Proof. by destruct tech. Qed.

(** The loop from round [a] on appends the round-robin of what is left
    of both samples. *)
Lemma interleave_loop (tech hr : list question) (c a : nat)
    (combined : list (string * question)) :
  (Nat.max (length tech) (length hr) = a + c)%nat →
  for_each (interleave_round tech hr) combined (Z.of_nat <$> seq a c)
  = Ok (combined ++ round_robin (drop a tech) (drop a hr)).
Proof.
  revert a combined. induction c as [|c IH]; intros a combined Hmax.
  - rewrite !drop_ge by lia. simpl. by rewrite app_nil_r.
  - cbn [seq fmap list_fmap for_each]. unfold interleave_round.
    destruct (Z.ltb_spec (Z.of_nat a) (len tech)) as [Ht|Ht];
      destruct (Z.ltb_spec (Z.of_nat a) (len hr)) as [Hh|Hh];
      unfold len in Ht, Hh.
    + destruct (lookup_lt_is_Some_2 tech a) as [t Hlt]; [lia |].
      destruct (lookup_lt_is_Some_2 hr a) as [h Hlh]; [lia |].
      rewrite (getitem_lookup _ _ _ Hlt), (getitem_lookup _ _ _ Hlh).
      cbn [mbind result_bind]. rewrite IH by lia.
      rewrite (drop_S _ _ _ Hlt), (drop_S _ _ _ Hlh).
      cbn [round_robin]. by rewrite <- !app_assoc.
    + destruct (lookup_lt_is_Some_2 tech a) as [t Hlt]; [lia |].
      rewrite (getitem_lookup _ _ _ Hlt).
      cbn [mbind result_bind]. rewrite IH by lia.
      rewrite (drop_S _ _ _ Hlt). rewrite !(drop_ge hr) by lia.
      rewrite !round_robin_nil_r, fmap_cons. by rewrite <- !app_assoc.
    + destruct (lookup_lt_is_Some_2 hr a) as [h Hlh]; [lia |].
      rewrite (getitem_lookup _ _ _ Hlh).
      cbn [mbind result_bind]. rewrite IH by lia.
      rewrite (drop_S _ _ _ Hlh). rewrite !(drop_ge tech) by lia.
      cbn [round_robin]. rewrite fmap_cons. by rewrite <- !app_assoc.
    + lia.
Qed.

Lemma interleave_round_robin (tech hr : list question) :
  interleave tech hr = Ok (round_robin tech hr).
Proof.
  unfold interleave. rewrite range_unfold.
  rewrite interleave_loop; [done |]. unfold len. lia.
Qed.

(** ** Tallies *)

Lemma foldl_add_acc (a : Z) (l : list Z) : foldl Z.add a l = a + sum l.
Proof.
  unfold sum. revert a. induction l as [|x l IH]; intros a; simpl; [lia |].
  rewrite (IH (a + x)), (IH (0 + x)). lia.
Qed.

Lemma sum_cons (x : Z) (l : list Z) : sum (x :: l) = x + sum l.
Proof. unfold sum at 1. simpl. apply foldl_add_acc. Qed.

Lemma sum_app (l1 l2 : list Z) : sum (l1 ++ l2) = sum l1 + sum l2.
Proof.
  induction l1 as [|x l1 IH]; [done |]. simpl. rewrite !sum_cons, IH. lia.
Qed.

Lemma dict_get_None (d : list (string * tally)) (k : string) :
  dict_get d k = None ↔ k ∉ d.*1.
Proof.
  induction d as [|[k' v] d IH]; simpl.
  - split; [intros _; apply not_elem_of_nil | done].
  - rewrite not_elem_of_cons. destruct (decide (k = k')); [|tauto].
    split; [done | tauto].
Qed.

Lemma setdefault_keys (d : list (string * tally)) (k : string) (v : tally) :
  (setdefault d k v).*1 = if decide (k ∈ d.*1) then d.*1 else d.*1 ++ [k].
Proof.
  induction d as [|[k' v'] d IH]; cbn [setdefault fmap list_fmap fst].
  - by rewrite decide_False by apply not_elem_of_nil.
  - destruct (decide (k = k')) as [->|Hne].
    + by rewrite decide_True by (apply elem_of_cons; by left).
    + cbn [fmap list_fmap fst]. rewrite IH.
      destruct (decide (k ∈ d.*1)) as [Hin|Hnin].
      * by rewrite decide_True by (apply elem_of_cons; by right).
      * rewrite decide_False; [done |]. rewrite elem_of_cons. tauto.
Qed.

Lemma setdefault_get (d : list (string * tally)) (k c : string) (v : tally) :
  dict_get (setdefault d k v) c
  = if decide (c = k) then Some (default v (dict_get d k)) else dict_get d c.
Proof.
  induction d as [|[k' v'] d IH]; simpl.
  - by destruct (decide (c = k)).
  - destruct (decide (k = k')) as [->|Hne]; simpl.
    + by destruct (decide (c = k')).
    + rewrite IH. destruct (decide (c = k')) as [->|]; [|done].
      by destruct (decide (k' = k)).
Qed.

Lemma setdefault_sum (g : tally → Z) (d : list (string * tally)) (k : string) :
  g zero_tally = 0 →
  sum (g <$> (setdefault d k zero_tally).*2) = sum (g <$> d.*2).
Proof.
  intros Hg. induction d as [|[k' v'] d IH]; cbn [setdefault].
  - rewrite !fmap_cons, sum_cons. cbn [snd]. rewrite Hg. done.
  - destruct (decide (k = k')); [done |].
    rewrite !fmap_cons, !sum_cons, IH. done.
Qed.

Lemma alter_key_keys (f : tally → tally) (k : string) (d : list (string * tally)) :
  (alter_key f k d).*1 = d.*1.
Proof.
  induction d as [|[k' v'] d IH]; cbn [alter_key]; [done |].
  destruct (decide (k = k')); [done |]. by rewrite !fmap_cons, IH.
Qed.

Lemma alter_key_get (f : tally → tally) (k c : string) (d : list (string * tally)) :
  dict_get (alter_key f k d) c
  = if decide (c = k) then f <$> dict_get d k else dict_get d c.
Proof.
  induction d as [|[k' v'] d IH]; simpl.
  - by destruct (decide (c = k)).
  - destruct (decide (k = k')) as [->|Hne]; simpl.
    + by destruct (decide (c = k')).
    + rewrite IH. destruct (decide (c = k')) as [->|]; [|done].
      by destruct (decide (k' = k)).
Qed.

Lemma alter_key_sum (g : tally → Z) (f : tally → tally) (k : string)
    (d : list (string * tally)) (v : tally) :
  dict_get d k = Some v →
  sum (g <$> (alter_key f k d).*2) = sum (g <$> d.*2) + g (f v) - g v.
Proof.
  induction d as [|[k' v'] d IH]; cbn [alter_key dict_get]; [done |].
  destruct (decide (k = k')) as [->|Hne].
  - intros [= ->]. rewrite !fmap_cons, !sum_cons. cbn [snd]. lia.
  - intros Hv. rewrite !fmap_cons, !sum_cons, IH by done. lia.
Qed.

Lemma tally_step_keys (d : list (string * tally)) (it : string * question * Z) :
  (tally_step d it).*1
  = if decide (item_category it ∈ d.*1) then d.*1 else d.*1 ++ [item_category it].
Proof. unfold tally_step. by rewrite !alter_key_keys, setdefault_keys. Qed.

Lemma tally_step_get (d : list (string * tally)) (it : string * question * Z)
    (c : string) :
  dict_get (tally_step d it) c
  = if decide (c = item_category it)
    then Some {| score := score (default zero_tally (dict_get d c)) + it.2;
                 possible := possible (default zero_tally (dict_get d c))
                             + item_possible it |}
    else dict_get d c.
Proof.
  unfold tally_step, item_category, item_possible.
  rewrite !alter_key_get, !setdefault_get.
  destruct (decide (c = it.1.1)) as [->|]; [|done].
  by destruct (decide (it.1.1 = it.1.1)).
Qed.

Lemma tally_step_sums (d : list (string * tally)) (it : string * question * Z) :
  sum (score <$> (tally_step d it).*2) = sum (score <$> d.*2) + it.2
  ∧ sum (possible <$> (tally_step d it).*2)
    = sum (possible <$> d.*2) + item_possible it.
Proof.
  unfold tally_step, item_possible.
  set (k := it.1.1). set (d0 := setdefault d k _).
  assert (dict_get d0 k = Some (default zero_tally (dict_get d k))) as H0.
  { unfold d0. rewrite setdefault_get. by rewrite decide_True. }
  set (v0 := default zero_tally (dict_get d k)) in *.
  assert (dict_get (alter_key (add_score it.2) k d0) k = Some (add_score it.2 v0)) as H1.
  { rewrite alter_key_get, decide_True by done. by rewrite H0. }
  split.
  - rewrite (alter_key_sum score _ _ _ _ H1), (alter_key_sum score _ _ _ _ H0).
    unfold d0. rewrite (setdefault_sum score) by done. simpl. lia.
  - rewrite (alter_key_sum possible _ _ _ _ H1), (alter_key_sum possible _ _ _ _ H0).
    unfold d0. rewrite (setdefault_sum possible) by done. simpl. lia.
Qed.

Lemma first_seen_snoc (l : list string) (x : string) :
  first_seen (l ++ [x])
  = if decide (x ∈ first_seen l) then first_seen l else first_seen l ++ [x].
Proof.
  unfold first_seen. rewrite reverse_snoc. cbn [remove_dups].
  destruct (decide_rel elem_of x (reverse l)) as [Hin|Hnin].
  - rewrite decide_True; [done |].
    by rewrite elem_of_reverse, elem_of_remove_dups.
  - rewrite decide_False, reverse_cons; [done |].
    by rewrite elem_of_reverse, elem_of_remove_dups.
Qed.

Lemma elem_of_first_seen (l : list string) (x : string) :
  x ∈ first_seen l ↔ x ∈ l.
Proof.
  unfold first_seen.
  by rewrite elem_of_reverse, elem_of_remove_dups, elem_of_reverse.
Qed.

Lemma sum_nil : sum [] = 0.
Proof. done. Qed.

Lemma filter_category_nil (items : list (string * question * Z)) (c : string) :
  c ∉ item_category <$> items →
  filter (λ it, item_category it = c) items = [].
Proof.
  induction items as [|it items IH]; [done |].
  rewrite fmap_cons, not_elem_of_cons. intros [Hne Hnin].
  rewrite filter_cons_False by done. by apply IH.
Qed.

(** The section loop over any list of scored questions. *)
Lemma tally_fold (items : list (string * question * Z)) :
  let d := foldl tally_step [] items in
  d.*1 = first_seen (item_category <$> items)
  ∧ (∀ c, dict_get d c
          = if decide (c ∈ item_category <$> items)
            then Some {| score := sum ((λ it, it.2) <$>
                                         filter (λ it, item_category it = c) items);
                         possible := sum (item_possible <$>
                                            filter (λ it, item_category it = c) items) |}
            else None)
  ∧ sum (score <$> d.*2) = sum (items.*2)
  ∧ sum (possible <$> d.*2) = sum (item_possible <$> items).
Proof.
  induction items as [|it items IH] using rev_ind.
  - simpl. split_and!; done.
  - destruct IH as (Hkeys & Hget & Hsc & Hpo).
    cbn zeta. rewrite foldl_app. cbn [foldl].
    destruct (tally_step_sums (foldl tally_step [] items) it) as [Hs1 Hs2].
    split_and!.
    + rewrite tally_step_keys, Hkeys, fmap_app. cbn [fmap list_fmap].
      rewrite first_seen_snoc.
      destruct (decide (item_category it ∈ first_seen (item_category <$> items)));
        done.
    + intros c. rewrite tally_step_get, Hget.
      rewrite !fmap_app, !filter_app, !fmap_app, !sum_app.
      destruct (decide (c = item_category it)) as [->|Hne].
      * rewrite (decide_True (P := _ ∈ _ ++ _))
          by (apply elem_of_app; right; apply elem_of_cons; by left).
        rewrite filter_cons_True by done. rewrite filter_nil, !fmap_cons.
        rewrite !sum_cons, !fmap_nil, !sum_nil.
        destruct (decide (item_category it ∈ item_category <$> items)) as [Hin|Hnin];
          cbn [default from_option id score possible zero_tally].
        -- do 2 f_equal; lia.
        -- rewrite (filter_category_nil items _ Hnin), !fmap_nil, !sum_nil.
           do 2 f_equal; lia.
      * rewrite filter_cons_False by done. rewrite filter_nil, !fmap_nil, !sum_nil.
        rewrite !Z.add_0_r.
        destruct (decide (c ∈ item_category <$> items)) as [Hin|Hnin].
        -- rewrite decide_True; [done |]. apply elem_of_app. by left.
        -- rewrite decide_False; [done |]. rewrite elem_of_app, fmap_cons, fmap_nil.
           rewrite elem_of_cons, elem_of_nil. tauto.
    + rewrite Hs1, Hsc, fmap_app, sum_app, fmap_cons, fmap_nil, sum_cons, sum_nil.
      lia.
    + rewrite Hs2, Hpo, fmap_app, sum_app, fmap_cons, fmap_nil, sum_cons, sum_nil.
      lia.
Qed.

(** ** The session invariant *)

Section SessionFacts.
Context `{PyStr}.

Lemma for_each_ok {S B : Type} (body : S → B → result S) (P : B → Prop)
    (l : list B) (s : S) :
  (∀ s x, P x → ∃ s', body s x = Ok s') → Forall P l →
  ∃ s', for_each body s l = Ok s'.
Proof.
  intros Hbody Hl. revert s. induction Hl as [|x l Hx _ IH]; intros s; simpl.
  - by exists s.
  - destruct (Hbody s x Hx) as (s1 & ->). simpl. apply IH.
Qed.

Lemma enumerate_bounds {A : Type} (l : list A) (a : Z) :
  Forall (λ p, a ≤ p.1 < a + len l) (enumerate a l).
Proof.
  revert a. induction l as [|x l IH]; intros a; simpl; constructor.
  - simpl. unfold len. simpl. lia.
  - eapply Forall_impl; [apply IH |]. intros [i y]. unfold len. simpl. lia.
Qed.

Lemma len_fmap {A B : Type} (f : A → B) (l : list A) : len (f <$> l) = len l.
Proof. unfold len. by rewrite length_fmap. Qed.

(** *** Building the slides *)

Lemma build_slides_loop (total : Z) (qs : list (string * question)) (a : Z)
    (sl0 : list QuestionSlide) :
  ∃ sl, for_each (build_slide total) sl0 (enumerate a qs) = Ok (sl0 ++ sl)
        ∧ question_data <$> sl = qs.*2
        ∧ Forall (λ x, fb_var x = "" ∧ hint_var x = "") sl.
Proof.
  revert a sl0. induction qs as [|[sect qdata] qs IH]; intros a sl0.
  - exists []. by rewrite app_nil_r.
  - cbn [enumerate for_each build_slide].
    destruct (getitem_in_range colors (a `mod` len colors)) as (c & -> & _).
    { apply Z.mod_pos_bound. done. }
    cbn [mbind result_bind].
    destruct (IH (a + 1) (sl0 ++ [{| question_data := qdata; index := a;
                                     total := total; bg := c; fb_var := "";
                                     hint_var := "" |}]))
      as (sl & -> & Hsl & Hfb).
    eexists (_ :: sl). rewrite <- app_assoc. split; [done |].
    split; [by rewrite !fmap_cons, Hsl | by constructor].
Qed.

(** *** Showing a slide *)

Lemma show_slide_ok (idx : Z) (s : App) :
  len (slides s) ≠ 0 →
  _show_slide idx s =
  Ok {| questions := questions s; current_idx := idx; slides := slides s;
        answers := answers s; scores := scores s; summary_sub := summary_sub s;
        progress_var := fmul (fdiv (float_of_int idx) (float_of_int (len (slides s))))
                           (float_of_int 100);
        btn_prev := 0 <? idx; btn_next := idx <? len (slides s);
        dialogs := dialogs s |}.
Proof.
  intros Hn. unfold _show_slide, truediv.
  by destruct (Z.eqb_spec (len (slides s)) 0).
Qed.

Lemma show_slide_inv (idx : Z) (s s' : App) :
  _show_slide idx s = Ok s' →
  len (slides s) ≠ 0 ∧
  s' = {| questions := questions s; current_idx := idx; slides := slides s;
          answers := answers s; scores := scores s; summary_sub := summary_sub s;
          progress_var := fmul (fdiv (float_of_int idx) (float_of_int (len (slides s))))
                           (float_of_int 100);
          btn_prev := 0 <? idx; btn_next := idx <? len (slides s);
          dialogs := dialogs s |}.
Proof.
  intros Hs. destruct (decide (len (slides s) = 0)) as [H0|Hn].
  - unfold _show_slide, truediv in Hs. rewrite H0 in Hs. done.
  - rewrite show_slide_ok in Hs by done. split; congruence.
Qed.

Lemma wf_len_slides (s : App) : wf s → len (slides s) = N s.
Proof.
  intros Hwf. unfold N. rewrite <- (len_fmap question_data), (wf_slides _ Hwf).
  apply len_fmap.
Qed.

Lemma show_slide_wf (idx : Z) (s : App) :
  wf s → 0 ≤ idx ≤ N s →
  ∃ s', _show_slide idx s = Ok s' ∧ wf s' ∧ current_idx s' = idx
        ∧ questions s' = questions s ∧ slides s' = slides s
        ∧ answers s' = answers s ∧ scores s' = scores s
        ∧ dialogs s' = dialogs s.
Proof.
  intros Hwf Hidx. pose proof (wf_len_slides s Hwf) as Hlen.
  pose proof (wf_nonempty s Hwf). unfold N in *.
  rewrite show_slide_ok by lia. eexists; split; [done |].
  split; [|done]. destruct Hwf. by constructor.
Qed.

(** *** Evaluating the current answer *)

Lemma evaluated_slide_data (ans : string) (sl : QuestionSlide) :
  question_data (evaluated_slide ans sl) = question_data sl
  ∧ fb_var (evaluated_slide ans sl)
    = (evaluate_answer ans (keywords (question_data sl))).1.2.
Proof.
  unfold evaluated_slide.
  destruct (evaluate_answer _ _) as [[m fb] ws]. by destruct ws.
Qed.

Lemma evaluated_slide_twice (t1 t2 : string) (sl : QuestionSlide) :
  evaluated_slide t2 (evaluated_slide t1 sl) = evaluated_slide t2 sl.
Proof.
  unfold evaluated_slide at 1 3.
  rewrite (proj1 (evaluated_slide_data t1 sl)).
  destruct (evaluate_answer t2 _) as [[m fb] ws].
  unfold evaluated_slide.
  destruct (evaluate_answer t1 _) as [[m1 fb1] ws1].
  by destruct ws, ws1.
Qed.

Lemma evaluate_current_summary (ans : string) (s : App) :
  len (slides s) ≤ current_idx s → evaluate_current ans s = Ok s.
Proof.
  intros Hs. unfold evaluate_current.
  by destruct (Z.leb_spec (len (slides s)) (current_idx s)); [|lia].
Qed.

Lemma evaluate_current_active (ans : string) (s : App) :
  wf s → current_idx s < N s →
  ∃ sl, slides s !! Z.to_nat (current_idx s) = Some sl ∧
    evaluate_current ans s =
    Ok {| questions := questions s; current_idx := current_idx s;
          slides := <[Z.to_nat (current_idx s) := evaluated_slide ans sl]> (slides s);
          answers := <[Z.to_nat (current_idx s) := ans]> (answers s);
          scores := <[Z.to_nat (current_idx s) :=
                        (evaluate_answer ans (keywords (question_data sl))).1.1]>
                      (scores s);
          summary_sub := summary_sub s; progress_var := progress_var s;
          btn_prev := btn_prev s; btn_next := btn_next s;
          dialogs := dialogs s ++
            ["Feedback:" +:+ NL +:+
               (evaluate_answer ans (keywords (question_data sl))).1.2] |}.
Proof.
  intros Hwf Hact. pose proof (wf_len_slides s Hwf) as Hlen.
  destruct Hwf as [Hidx _ _ Hans Hsc _ _ _]. unfold N in *.
  unfold evaluate_current.
  destruct (Z.leb_spec (len (slides s)) (current_idx s)); [lia |].
  destruct (getitem_in_range (slides s) (current_idx s)) as (sl & -> & Hsl); [lia |].
  exists sl. split; [done |]. cbn [mbind result_bind].
  rewrite setitem_in_range by lia. cbn [mbind result_bind].
  unfold evaluated_slide.
  destruct (evaluate_answer ans _) as [[m fb] ws].
  rewrite setitem_in_range by lia. cbn [mbind result_bind].
  rewrite setitem_in_range by lia. cbn [mbind result_bind].
  by destruct ws.
Qed.

Lemma evaluate_current_wf (ans : string) (s : App) :
  wf s →
  ∃ s', evaluate_current ans s = Ok s' ∧ wf s'
        ∧ current_idx s' = current_idx s ∧ questions s' = questions s.
Proof.
  intros Hwf. pose proof (wf_len_slides s Hwf) as Hlen. unfold N in Hlen.
  destruct (decide (current_idx s < N s)) as [Hact|Hsum].
  - destruct (evaluate_current_active ans s Hwf Hact) as (sl & Hsl & ->).
    eexists; split; [done |]. split; [|done].
    destruct Hwf as [Hidx Hne Hsl' Hans Hsc Hpr Hbp Hbn].
    constructor; cbn [questions current_idx slides answers scores
                      progress_var btn_prev btn_next];
      rewrite ?len_insert; try done.
    rewrite list_fmap_insert, (proj1 (evaluated_slide_data ans sl)).
    rewrite <- Hsl'. apply list_insert_id. by rewrite list_lookup_fmap, Hsl.
  - unfold N in Hsum. rewrite evaluate_current_summary by lia. by exists s.
Qed.

(** *** The summary *)

Lemma tally_loop (scs : list Z) (qs : list (string * question)) (a : nat)
    (d : list (string * tally)) :
  (a + length qs ≤ length scs)%nat →
  for_each (tally_round scs) d (enumerate (Z.of_nat a) qs)
  = Ok (foldl tally_step d (zip qs (drop a scs))).
Proof.
  revert a d. induction qs as [|[sect qdata] qs IH]; intros a d Ha.
  - done.
  - cbn [enumerate for_each tally_round]. simpl in Ha.
    destruct (lookup_lt_is_Some_2 scs a) as [sc Hsc]; [lia |].
    rewrite (getitem_lookup _ _ _ Hsc). cbn [mbind result_bind].
    replace (Z.of_nat a + 1) with (Z.of_nat (S a)) by lia.
    rewrite IH by lia. by rewrite (drop_S _ _ _ Hsc).
Qed.

Lemma summary_totals_ok (s : App) :
  wf s →
  summary_totals s
  = Ok (sum (scores s), sum ((λ qu, len (keywords qu.2)) <$> questions s),
        foldl tally_step [] (zip (questions s) (scores s))).
Proof.
  intros Hwf. unfold summary_totals.
  rewrite (tally_loop (scores s) (questions s) 0).
  - done.
  - pose proof (wf_scores s Hwf). unfold len in *. lia.
Qed.

Lemma detail_loop_ok (s : App) (lines : list string) :
  wf s → ∃ lines', for_each (detail_round s) lines (enumerate 0 (questions s))
                   = Ok lines'.
Proof.
  intros Hwf. eapply for_each_ok; [|apply enumerate_bounds].
  intros ls [i [sect qdata]] Hi. simpl in Hi. unfold detail_round.
  destruct (getitem_in_range (answers s) i) as (a & -> & _);
    [rewrite (wf_answers s Hwf); lia |].
  destruct (getitem_in_range (scores s) i) as (m & -> & _);
    [rewrite (wf_scores s Hwf); lia |].
  cbn [mbind result_bind]. by eexists.
Qed.

Lemma show_summary_wf (s : App) :
  wf s →
  ∃ s', _show_summary s = Ok s' ∧ wf s' ∧ current_idx s' = N s
        ∧ questions s' = questions s ∧ slides s' = slides s
        ∧ answers s' = answers s ∧ scores s' = scores s
        ∧ dialogs s' = dialogs s.
Proof.
  intros Hwf. unfold _show_summary. rewrite summary_totals_ok by done.
  cbn [mbind result_bind].
  match goal with
  | |- context [for_each (detail_round s) ?ls _] =>
      destruct (detail_loop_ok s ls Hwf) as (lines' & ->)
  end.
  cbn [mbind result_bind].
  pose proof (wf_len_slides s Hwf) as Hlen.
  destruct (show_slide_wf (len (slides s))
              (set_summary_sub (String.concat NL lines') s))
    as (s' & Hs' & Hwf' & Hidx & Hrest).
  - destruct Hwf. by constructor.
  - rewrite Hlen. unfold N. pose proof (wf_nonempty s Hwf). simpl. lia.
  - exists s'. simpl in *. rewrite Hlen in Hidx. done.
Qed.

(** *** Navigation *)

Lemma next_slide_wf (ans : string) (s : App) :
  wf s →
  ∃ s', next_slide ans s = Ok s' ∧ wf s'
        ∧ current_idx s' = Z.min (current_idx s + 1) (N s)
        ∧ questions s' = questions s.
Proof.
  intros Hwf. unfold next_slide.
  destruct (evaluate_current_wf ans s Hwf) as (s1 & -> & Hwf1 & Hidx1 & Hq1).
  cbn [mbind result_bind].
  pose proof (wf_len_slides s1 Hwf1) as Hlen. pose proof (wf_idx s1 Hwf1) as Hb.
  assert (len (questions s1) = len (questions s)) as HN by (by rewrite Hq1).
  unfold N in *.
  destruct (Z.ltb_spec (current_idx s1) (len (slides s1) - 1)) as [Hlt|Hge].
  - destruct (show_slide_wf (current_idx s1 + 1) s1 Hwf1)
      as (s' & -> & Hwf' & Hidx' & Hq' & _); [unfold N; lia |].
    exists s'. split_and!; [done | done | lia | congruence].
  - destruct (show_summary_wf s1 Hwf1) as (s' & -> & Hwf' & Hidx' & Hq' & _).
    exists s'. unfold N in *. split_and!; [done | done | lia | congruence].
Qed.

Lemma prev_slide_wf (s : App) :
  wf s →
  ∃ s', prev_slide s = Ok s' ∧ wf s'
        ∧ current_idx s' = Z.max (current_idx s - 1) 0
        ∧ questions s' = questions s ∧ slides s' = slides s
        ∧ answers s' = answers s ∧ scores s' = scores s
        ∧ dialogs s' = dialogs s.
Proof.
  intros Hwf. unfold prev_slide. pose proof (wf_idx s Hwf) as Hb.
  destruct (Z.ltb_spec 0 (current_idx s)) as [Hpos|Hzero].
  - destruct (show_slide_wf (current_idx s - 1) s Hwf)
      as (s' & -> & Hwf' & Hidx' & Hrest); [unfold N; lia |].
    exists s'. split_and!; try done; try tauto. lia.
  - exists s. split_and!; try done. lia.
Qed.

Lemma start_inv (qs : list (string * question)) (s : App) :
  start qs = Ok s →
  wf s ∧ current_idx s = 0 ∧ questions s = qs
  ∧ answers s = replicate (length qs) "" ∧ scores s = replicate (length qs) 0
  ∧ Forall (λ x, fb_var x = "" ∧ hint_var x = "") (slides s).
Proof.
  unfold start, _build_slides. cbn [questions slides].
  destruct (build_slides_loop (len qs) qs 1 []) as (sl & -> & Hsl & Hfb).
  cbn [mbind result_bind app]. intros Hs.
  apply show_slide_inv in Hs as [Hne ->]. simpl in *.
  assert (len sl = len qs) as Hlen.
  { rewrite <- (len_fmap question_data), Hsl. apply len_fmap. }
  repeat split; simpl; try done.
  - pose proof (len_nonneg qs). lia.
  - pose proof (len_nonneg qs). lia.
  - unfold len. by rewrite length_replicate.
  - unfold len. by rewrite length_replicate.
Qed.

Lemma start_ok (qs : list (string * question)) :
  qs ≠ [] → ∃ s, start qs = Ok s.
Proof.
  intros Hqs. unfold start, _build_slides. cbn [questions slides].
  destruct (build_slides_loop (len qs) qs 1 []) as (sl & -> & Hsl & _).
  cbn [mbind result_bind app]. rewrite show_slide_ok; [by eexists |].
  simpl. rewrite <- (len_fmap question_data), Hsl, len_fmap.
  destruct qs; [done |]. unfold len. simpl. lia.
Qed.

Lemma run_wf (o : op) (s : App) :
  wf s → ∃ s', run o s = Ok s' ∧ wf s' ∧ questions s' = questions s.
Proof.
  intros Hwf. destruct o as [ans|ans|]; simpl.
  - destruct (evaluate_current_wf ans s Hwf) as (s' & ? & ? & ? & ?). eauto.
  - destruct (next_slide_wf ans s Hwf) as (s' & ? & ? & ? & ?). eauto.
  - destruct (prev_slide_wf s Hwf) as (s' & ? & ? & ? & ? & ?). eauto.
Qed.

Lemma reachable_wf (s : App) : reachable s → wf s.
Proof.
  induction 1 as [qs s Hs|o s s' _ IH Hrun].
  - by apply start_inv in Hs as [? _].
  - destruct (run_wf o s IH) as (s'' & Hrun' & Hwf' & _). congruence.
Qed.
End SessionFacts.

(** ** The session: theorems *)

Section SessionTheorems.
Context `{PyStr}.

Lemma evaluated_slide_hint (ans : string) (sl : QuestionSlide) :
  hint_var (evaluated_slide ans sl)
  = hint_text (evaluate_answer ans (keywords (question_data sl))).2.
Proof.
  unfold evaluated_slide.
  destruct (evaluate_answer _ _) as [[m fb] ws]. by destruct ws.
Qed.

Lemma run_deterministic_questions (o : op) (s s' : App) :
  wf s → run o s = Ok s' → wf s' ∧ questions s' = questions s.
Proof.
  intros Hwf Hrun. destruct (run_wf o s Hwf) as (s'' & Hrun' & ? & ?).
  assert (s' = s'') as -> by congruence. done.
Qed.

(** C3: the session list is the round-robin interleaving of the two
    samples, technical question first on each round and the rest of the
    longer sample appended; [_prepare_questions] returns that list for
    the two samples it draws; and the list a session starts with is the
    list of every state the session reaches. *)
Theorem session_list_round_robin :
  (∀ tech hr, interleave tech hr = Ok (round_robin tech hr))
  ∧ (∀ rng, ∃ tech hr,
        sample rng TECHNICAL_QUESTIONS NUM_TECH = Ok tech
        ∧ sample (λ i, rng (length tech + i)%nat) HR_QUESTIONS NUM_HR = Ok hr
        ∧ _prepare_questions rng = Ok (round_robin tech hr))
  ∧ (∀ qs s, start qs = Ok s → questions s = qs)
  ∧ (∀ s o s', reachable s → run o s = Ok s' → questions s' = questions s).
Proof.
  split_and!.
  - apply interleave_round_robin.
  - intros rng. unfold _prepare_questions, sample.
    destruct (random_sample_ok rng TECHNICAL_QUESTIONS
                (Z.min NUM_TECH (len TECHNICAL_QUESTIONS)))
      as (tech & _ & Ht & _); [done |].
    destruct (random_sample_ok (λ i, rng (length tech + i)%nat) HR_QUESTIONS
                (Z.min NUM_HR (len HR_QUESTIONS)))
      as (hr & _ & Hh & _); [done |].
    exists tech, hr. rewrite Ht. cbn [mbind result_bind]. rewrite Hh.
    cbn [mbind result_bind]. split_and!; try done. apply interleave_round_robin.
  - intros qs s Hs. by apply start_inv in Hs as (_ & _ & ? & _).
  - intros s o s' Hs Hrun.
    by destruct (run_deterministic_questions o s s' (reachable_wf s Hs) Hrun).
Qed.

(** C5 (as the code has it): in the summary position [next_slide] and
    [evaluate_current] stay there and the Next button is disabled, but
    the Previous button is enabled and [prev_slide] goes back to the
    last question. *)
Theorem summary_allows_previous (s : App) :
  reachable s → current_idx s = N s →
  (∀ ans, ∃ s', next_slide ans s = Ok s' ∧ current_idx s' = N s')
  ∧ (∀ ans, evaluate_current ans s = Ok s)
  ∧ btn_next s = false
  ∧ btn_prev s = true
  ∧ ∃ s', prev_slide s = Ok s' ∧ current_idx s' = N s - 1 ∧ N s' = N s.
Proof.
  intros Hs Hsum. pose proof (reachable_wf s Hs) as Hwf.
  pose proof (wf_len_slides s Hwf) as Hlen.
  pose proof (wf_nonempty s Hwf) as Hne. unfold N in *.
  split_and!.
  - intros ans. destruct (next_slide_wf ans s Hwf) as (s' & -> & _ & Hidx & Hq).
    exists s'. split; [done |]. unfold N in *. rewrite Hq. lia.
  - intros ans. apply evaluate_current_summary. lia.
  - rewrite (wf_next s Hwf). apply Z.ltb_ge. lia.
  - rewrite (wf_prev s Hwf). apply Z.ltb_lt. lia.
  - destruct (prev_slide_wf s Hwf) as (s' & -> & _ & Hidx & Hq & _).
    exists s'. split; [done |]. rewrite Hq. split; [lia | done].
Qed.

(** C7: in an active position, submitting [t1] and then [t2] leaves at
    the current index the answer [t2] with the score, feedback and hint
    of [evaluate_answer t2] on the current question's keywords, the
    same lists of answers, scores and slides as submitting [t2] alone;
    each of the two submissions keeps the position and the entries of
    every other index. *)
Theorem submit_overwrites (s : App) (t1 t2 : string) :
  reachable s → current_idx s < N s →
  let i := Z.to_nat (current_idx s) in
  ∃ sect qdata s1 s2,
    questions s !! i = Some (sect, qdata)
    ∧ evaluate_current t1 s = Ok s1
    ∧ evaluate_current t2 s1 = Ok s2
    ∧ answer_record s2 i
      = Some (t2, (evaluate_answer t2 (keywords qdata)).1.1,
              (evaluate_answer t2 (keywords qdata)).1.2,
              hint_text (evaluate_answer t2 (keywords qdata)).2)
    ∧ (∃ s2', evaluate_current t2 s = Ok s2'
              ∧ answers s2 = answers s2' ∧ scores s2 = scores s2'
              ∧ slides s2 = slides s2')
    ∧ current_idx s1 = current_idx s ∧ current_idx s2 = current_idx s
    ∧ questions s1 = questions s ∧ questions s2 = questions s
    ∧ ∀ j, j ≠ i →
        (answers s1 !! j = answers s !! j ∧ scores s1 !! j = scores s !! j
         ∧ slides s1 !! j = slides s !! j)
        ∧ (answers s2 !! j = answers s1 !! j ∧ scores s2 !! j = scores s1 !! j
           ∧ slides s2 !! j = slides s1 !! j).
Proof.
  intros Hs Hact i. pose proof (reachable_wf s Hs) as Hwf.
  pose proof (wf_idx s Hwf) as Hidx.
  destruct (evaluate_current_active t1 s Hwf Hact) as (sl & Hsl & Hs1).
  destruct (evaluate_current_active t2 s Hwf Hact) as (sl' & Hsl' & Hs2').
  assert (sl' = sl) as -> by congruence. clear Hsl'.
  destruct (evaluate_current_wf t1 s Hwf) as (s1 & Hs1' & Hwf1 & Hidx1 & Hq1).
  assert (current_idx s1 < N s1) as Hact1 by (unfold N in *; congruence).
  destruct (evaluate_current_active t2 s1 Hwf1 Hact1) as (sl1 & Hsl1 & Hs2).
  rewrite Hidx1 in Hsl1, Hs2. fold i in Hsl, Hs1, Hs2', Hsl1, Hs2.
  assert (i < length (slides s))%nat as Hi by (by eapply lookup_lt_Some).
  assert (i < length (answers s))%nat as Hia
    by (pose proof (wf_answers s Hwf); unfold N, len in *; lia).
  assert (i < length (scores s))%nat as Hisc
    by (pose proof (wf_scores s Hwf); unfold N, len in *; lia).
  destruct (questions s !! i) as [[sect qdata]|] eqn:Hqi; last first.
  { apply lookup_ge_None in Hqi. unfold N, len in *. lia. }
  assert (question_data sl = qdata) as Hqd.
  { pose proof (wf_slides s Hwf) as Hm.
    apply (f_equal (λ l, l !! i)) in Hm.
    rewrite !list_lookup_fmap, Hsl, Hqi in Hm. simpl in Hm. congruence. }
  rewrite Hs1 in Hs1'. injection Hs1' as <-.
  cbn [questions current_idx slides answers scores summary_sub progress_var
       btn_prev btn_next dialogs] in *.
  rewrite list_lookup_insert_eq in Hsl1 by done. injection Hsl1 as <-.
  rewrite !list_insert_insert_eq, evaluated_slide_twice in Hs2.
  rewrite (proj1 (evaluated_slide_data t1 sl)) in Hs2.
  exists sect, qdata. eexists. eexists.
  split; [done |]. split; [exact Hs1 |]. split; [exact Hs2 |].
  cbn [questions current_idx slides answers scores].
  split_and!.
  - unfold answer_record.
    cbn [questions current_idx slides answers scores].
    rewrite !list_lookup_insert_eq by done. simpl.
    rewrite (proj2 (evaluated_slide_data t2 sl)), evaluated_slide_hint.
    by rewrite Hqd.
  - eexists. split; [exact Hs2' |]. done.
  - done.
  - done.
  - done.
  - done.
  - intros j Hj. rewrite !list_lookup_insert_ne by done. done.
Qed.

(** C8: in every reachable state the position lies between 0 and N and
    there are N answers and N scores; every command returns such a
    state over the same questions; at the first question [prev_slide]
    changes nothing, and at the last question [next_slide] moves to the
    summary position N. *)
Theorem navigation_keeps_bounds (s : App) :
  reachable s →
  (0 ≤ current_idx s ≤ N s ∧ len (answers s) = N s ∧ len (scores s) = N s)
  ∧ (∀ o, ∃ s', run o s = Ok s' ∧ N s' = N s
                ∧ 0 ≤ current_idx s' ≤ N s'
                ∧ len (answers s') = N s' ∧ len (scores s') = N s')
  ∧ (current_idx s = 0 → prev_slide s = Ok s)
  ∧ (current_idx s = N s - 1 →
     ∀ ans, ∃ s', next_slide ans s = Ok s' ∧ current_idx s' = N s').
Proof.
  intros Hs. pose proof (reachable_wf s Hs) as Hwf.
  split; [|split; [|split]].
  - pose proof (wf_idx s Hwf). pose proof (wf_answers s Hwf).
    pose proof (wf_scores s Hwf). done.
  - intros o. destruct (run_wf o s Hwf) as (s' & Hrun & Hwf' & Hq).
    exists s'. unfold N.
    pose proof (wf_idx s' Hwf'). pose proof (wf_answers s' Hwf').
    pose proof (wf_scores s' Hwf'). by rewrite Hq in *.
  - intros H0. unfold prev_slide. by rewrite H0.
  - intros Hlast ans.
    destruct (next_slide_wf ans s Hwf) as (s' & -> & _ & Hidx & Hq).
    exists s'. split; [done |]. unfold N in *. rewrite Hq. lia.
Qed.

(** C10 (as the code has it): a submission in the summary position
    raises nothing and shows nothing; it returns with the whole state
    unchanged.  So does [prev_slide] at the first question. *)
Theorem invalid_calls_are_silent (s : App) (ans : string) :
  reachable s →
  (current_idx s = N s → evaluate_current ans s = Ok s)
  ∧ (current_idx s = 0 → prev_slide s = Ok s).
Proof.
  intros Hs. pose proof (reachable_wf s Hs) as Hwf.
  pose proof (wf_len_slides s Hwf) as Hlen. split.
  - intros Hsum. apply evaluate_current_summary. lia.
  - intros H0. unfold prev_slide. by rewrite H0.
Qed.
End SessionTheorems.

(** ** Summary and progress *)

Lemma filter_category_fst (items : list (string * question * Z)) (c : string) :
  (filter (λ it, item_category it = c) items).*1
  = filter (λ qu, qu.1 = c) items.*1.
Proof.
  induction items as [|it items IH]; [done |].
  rewrite fmap_cons. destruct (decide (item_category it = c)) as [Hc|Hc].
  - rewrite !filter_cons_True by done. by rewrite fmap_cons, IH.
  - by rewrite !filter_cons_False by done.
Qed.





Section SummaryTheorems.
Context `{PyStr}.

Lemma foldl_snoc_fmap {A B : Type} (g : A → B) (l0 : list B) (l : list A) :
  foldl (λ acc x, acc ++ [g x]) l0 l = l0 ++ (g <$> l).
Proof.
  revert l0. induction l as [|x l IH]; intros l0; simpl.
  - by rewrite app_nil_r.
  - rewrite IH, <- app_assoc. done.
Qed.

Lemma detail_loop (s : App) (qs : list (string * question)) (a : nat)
    (lines : list string) :
  (a + length qs ≤ length (answers s))%nat →
  (a + length qs ≤ length (scores s))%nat →
  for_each (detail_round s) lines (enumerate (Z.of_nat a) qs)
  = Ok (lines ++ detail_rows (Z.of_nat a) qs (drop a (answers s))
                             (drop a (scores s))).
Proof.
  revert a lines. induction qs as [|[sect qd] qs IH]; intros a lines Ha Hs.
  - cbn [enumerate for_each detail_rows]. by rewrite app_nil_r.
  - cbn [enumerate for_each detail_round]. simpl in Ha, Hs.
    destruct (lookup_lt_is_Some_2 (answers s) a) as [x Hx]; [lia |].
    destruct (lookup_lt_is_Some_2 (scores s) a) as [m Hm]; [lia |].
    rewrite (getitem_lookup _ _ _ Hx). cbn [mbind result_bind].
    rewrite (getitem_lookup _ _ _ Hm). cbn [mbind result_bind].
    replace (Z.of_nat a + 1) with (Z.of_nat (S a)) by lia.
    rewrite IH by lia.
    rewrite (drop_S _ _ _ Hx), (drop_S _ _ _ Hm). cbn [detail_rows].
    replace (Z.of_nat a + 1) with (Z.of_nat (S a)) by lia.
    unfold detail_lines.
    replace (Z.of_nat a + 1) with (Z.of_nat (S a)) by lia.
    by rewrite <- app_assoc.
Qed.

(** What [_show_summary] writes on the summary slide. *)
Lemma show_summary_text (s : App) :
  wf s →
  ∃ s', _show_summary s = Ok s'
    ∧ summary_sub s'
      = report_text (sum (scores s))
          (sum ((λ qu, len (keywords qu.2)) <$> questions s))
          (foldl tally_step [] (zip (questions s) (scores s)))
          (detail_rows 0 (questions s) (answers s) (scores s)).
Proof.
  intros Hwf. unfold _show_summary. rewrite summary_totals_ok by done.
  cbn [mbind result_bind].
  rewrite (detail_loop s (questions s) 0).
  - cbn [mbind result_bind].
    pose proof (wf_len_slides s Hwf) as Hlen. pose proof (wf_nonempty s Hwf).
    rewrite show_slide_ok by (cbn [slides set_summary_sub]; unfold N in *; lia).
    eexists; split; [done |]. cbn [summary_sub set_summary_sub].
    unfold report_text. f_equal. rewrite foldl_snoc_fmap.
    rewrite !drop_0. by rewrite <- !app_assoc.
  - pose proof (wf_answers s Hwf). unfold len in *. lia.
  - pose proof (wf_scores s Hwf). unfold len in *. lia.
Qed.

(** C4: in every reachable state the summary computes the total of
    possible points as the sum of the keyword counts of all questions
    and the total score as the sum of the stored scores; the
    per-section tallies are keyed by the sections in order of first
    appearance, each holding the summed scores and keyword counts of
    that section's questions; and the two totals are the sums of the
    per-section scores and possibles.  [_show_summary] succeeds, writes
    the report of exactly these figures (total line, one line per
    section in that order, four lines per question) on the summary
    slide, moves to the summary position, and leaves questions, answers
    and scores as they are. *)
Theorem summary_totals_add_up (s : App) :
  reachable s →
  ∃ section_wise s',
    summary_totals s
    = Ok (sum (scores s), sum ((λ qu, len (keywords qu.2)) <$> questions s),
          section_wise)
    ∧ section_wise.*1 = first_seen (questions s).*1
    ∧ (∀ c t, dict_get section_wise c = Some t →
              score t = section_score c s ∧ possible t = section_possible c s)
    ∧ sum (score <$> section_wise.*2) = sum (scores s)
    ∧ sum (possible <$> section_wise.*2)
      = sum ((λ qu, len (keywords qu.2)) <$> questions s)
    ∧ _show_summary s = Ok s'
    ∧ questions s' = questions s ∧ answers s' = answers s
    ∧ scores s' = scores s
    ∧ summary_sub s'
      = report_text (sum (scores s))
          (sum ((λ qu, len (keywords qu.2)) <$> questions s))
          section_wise
          (detail_rows 0 (questions s) (answers s) (scores s))
    ∧ current_idx s' = N s.
Proof.
  intros Hs. pose proof (reachable_wf s Hs) as Hwf.
  destruct (show_summary_wf s Hwf)
    as (s' & Hs' & _ & Hidx & Hq & _ & Ha & Hsc & _).
  destruct (show_summary_text s Hwf) as (s'' & Hs'' & Htext).
  assert (s'' = s') as -> by congruence.
  exists (foldl tally_step [] (zip (questions s) (scores s))), s'.
  pose proof (tally_fold (zip (questions s) (scores s)))
    as (Hkeys & Hget & Hscore & Hposs).
  assert (length (questions s) = length (scores s)) as Hlen
    by (pose proof (wf_scores s Hwf); unfold len in *; lia).
  assert ((zip (questions s) (scores s)).*1 = questions s) as Hfst
    by (apply fst_zip; lia).
  assert ((zip (questions s) (scores s)).*2 = scores s) as Hsnd
    by (apply snd_zip; lia).
  assert (∀ l : list (string * question * Z),
            item_possible <$> l = (λ qu, len (keywords qu.2)) <$> l.*1) as Hposs'
    by (intros l; by rewrite <- list_fmap_compose).
  assert (∀ l : list (string * question * Z),
            item_category <$> l = (l.*1).*1) as Hcat
    by (intros l; by rewrite <- list_fmap_compose).
  split_and!; try done.
  - by apply summary_totals_ok.
  - by rewrite Hkeys, Hcat, Hfst.
  - intros c t. rewrite Hget. case_decide; [|done]. intros [= <-].
    unfold section_score, section_possible. cbn [score possible].
    split; [done |]. by rewrite Hposs', filter_category_fst, Hfst.
  - by rewrite Hscore, Hsnd.
  - by rewrite Hposs, Hposs', Hfst.
Qed.
End SummaryTheorems.

(** ** More on scoring *)

Lemma append_assoc (a b c : string) : (a +:+ b) +:+ c = a +:+ b +:+ c.
Proof.
  induction a as [|x a IH]; [done |]. by rewrite !append_cons_l, IH.
Qed.

Lemma append_nil_r (a : string) : a +:+ "" = a.
Proof. induction a as [|x a IH]; [done |]. by rewrite append_cons_l, IH. Qed.

Lemma append_eq_nil (a b : string) : a +:+ b = "" → a = "" ∧ b = "".
Proof. destruct a; [done |]. by rewrite append_cons_l. Qed.

Lemma substring_of_trans (a b c : string) :
  substring_of a b → substring_of b c → substring_of a c.
Proof.
  intros (p1 & q1 & ->) (p2 & q2 & ->).
  exists (p2 +:+ p1), (q1 +:+ q2). by rewrite !append_assoc.
Qed.

Lemma substring_of_empty (s : string) : substring_of "" s.
Proof. by exists "", s. Qed.

Lemma substring_of_empty_inv (sub : string) : substring_of sub "" → sub = "".
Proof.
  intros (pre & post & Heq). symmetry in Heq.
  apply append_eq_nil in Heq as [_ Heq]. by apply append_eq_nil in Heq as [? _].
Qed.

Lemma filter_impl_sublist {A : Type} (P Q : A → Prop)
    `{∀ x, Decision (P x)} `{∀ x, Decision (Q x)} (l : list A) :
  (∀ x, P x → Q x) → filter P l `sublist_of` filter Q l.
Proof.
  intros HPQ. induction l as [|x l IH]; [done |].
  destruct (decide (P x)) as [HP|HP].
  - rewrite !filter_cons_True by auto. by apply sublist_skip.
  - rewrite (filter_cons_False P) by done.
    destruct (decide (Q x)).
    + rewrite filter_cons_True by done. by apply sublist_cons.
    + by rewrite filter_cons_False by done.
Qed.

Lemma filter_ext_in {A : Type} (P Q : A → Prop)
    `{∀ x, Decision (P x)} `{∀ x, Decision (Q x)} (l : list A) :
  (∀ x, x ∈ l → (P x ↔ Q x)) → filter P l = filter Q l.
Proof.
  induction l as [|x l IH]; intros HPQ; [done |].
  assert (filter P l = filter Q l) as Hl
    by (apply IH; intros y Hy; apply HPQ, elem_of_cons; by right).
  assert (P x ↔ Q x) as Hx by (apply HPQ, elem_of_cons; by left).
  destruct (decide (P x)) as [HP|HP].
  - rewrite !filter_cons_True by tauto. by rewrite Hl.
  - rewrite !filter_cons_False by tauto. done.
Qed.

Section ScoringMore.
Context `{PyStr}.

(** The matched words and the count of an evaluation. *)
Lemma evaluate_answer_words (answer : string) (kws : list string) :
  (evaluate_answer answer kws).2
  = filter (λ kw, substring_of (lower kw) (lower answer)) kws
  ∧ (evaluate_answer answer kws).1.1 = len (evaluate_answer answer kws).2.
Proof. by rewrite evaluate_answer_unfold. Qed.

Lemma evaluate_answer_bounds (answer : string) (kws : list string) :
  0 ≤ (evaluate_answer answer kws).1.1 ≤ len kws.
Proof.
  rewrite evaluate_answer_unfold. cbn [fst]. split; [apply len_nonneg |].
  unfold len. pose proof (length_filter
    (λ kw, substring_of (lower kw) (lower answer)) kws). lia.
Qed.

(** X1: an answer that is empty once lowercased matches exactly the
    keywords that are empty once lowercased; when no keyword is, the
    result is a count of 0, the "Needs improvement" feedback and no
    matched word. *)
Theorem empty_answer_matches_only_empty_keywords (answer : string)
    (kws : list string) :
  lower answer = "" →
  (evaluate_answer answer kws).2 = filter (λ kw, lower kw = "") kws
  ∧ (Forall (λ kw, lower kw ≠ "") kws →
     evaluate_answer answer kws = (0, FB_NEEDS_IMPROVEMENT, [])).
Proof.
  intros Hans.
  assert (filter (λ kw, substring_of (lower kw) (lower answer)) kws
          = filter (λ kw, lower kw = "") kws) as Hf.
  { apply filter_ext_in. intros kw _. rewrite Hans. split.
    - apply substring_of_empty_inv.
    - intros ->. apply substring_of_empty. }
  split.
  - by rewrite (proj1 (evaluate_answer_words answer kws)).
  - intros Hne. rewrite evaluate_answer_unfold. cbn zeta. rewrite Hf.
    assert (filter (λ kw, lower kw = "") kws = []) as ->; [|done].
    clear Hf. induction Hne as [|kw kws Hkw _ IH]; [done |].
    rewrite filter_cons_False by done. exact IH.
Qed.

(** X2: a keyword that is empty once lowercased is matched by every
    answer, so a keyword list holding one never scores 0. *)
Theorem empty_keyword_always_matches (answer kw : string) (kws : list string) :
  lower kw = "" → kw ∈ kws →
  kw ∈ (evaluate_answer answer kws).2
  ∧ 0 < (evaluate_answer answer kws).1.1
  ∧ (evaluate_answer answer kws).1.2 ≠ FB_NEEDS_IMPROVEMENT.
Proof.
  intros Hkw Hin.
  assert (kw ∈ (evaluate_answer answer kws).2) as Hm.
  { rewrite (proj1 (evaluate_answer_words answer kws)).
    apply list_elem_of_filter. split; [|done]. rewrite Hkw. apply substring_of_empty. }
  assert (0 < (evaluate_answer answer kws).1.1) as Hpos.
  { rewrite (proj2 (evaluate_answer_words answer kws)).
    destruct ((evaluate_answer answer kws).2); [by apply elem_of_nil in Hm |].
    unfold len. simpl. lia. }
  split_and!; try done.
  pose proof feedback_texts_distinct as (Hng & Hne & _).
  rewrite evaluate_answer_unfold in *. cbn [fst snd] in *.
  destruct (Z.eqb_spec (len (filter (λ kw0, substring_of (lower kw0) (lower answer)) kws)) 0);
    [lia |].
  by destruct (_ <? _).
Qed.

(** X3: if the lowercased first answer occurs inside the lowercased
    second answer, every keyword the first answer matches is matched by
    the second, in the same order, and the count does not drop. *)
Theorem longer_answer_matches_more (a1 a2 : string) (kws : list string) :
  substring_of (lower a1) (lower a2) →
  (evaluate_answer a1 kws).2 `sublist_of` (evaluate_answer a2 kws).2
  ∧ (evaluate_answer a1 kws).1.1 ≤ (evaluate_answer a2 kws).1.1.
Proof.
  intros Hsub.
  assert ((evaluate_answer a1 kws).2 `sublist_of` (evaluate_answer a2 kws).2) as Hl.
  { rewrite !(proj1 (evaluate_answer_words _ kws)).
    apply filter_impl_sublist. intros kw Hkw. by eapply substring_of_trans. }
  split; [done |]. rewrite !(proj2 (evaluate_answer_words _ kws)).
  apply sublist_length in Hl. unfold len. lia.
Qed.

(** X4: evaluating against two keyword lists joined end to end adds the
    two counts and joins the two lists of matched words. *)
Theorem evaluate_answer_app (answer : string) (kws1 kws2 : list string) :
  (evaluate_answer answer (kws1 ++ kws2)).1.1
  = (evaluate_answer answer kws1).1.1 + (evaluate_answer answer kws2).1.1
  ∧ (evaluate_answer answer (kws1 ++ kws2)).2
    = (evaluate_answer answer kws1).2 ++ (evaluate_answer answer kws2).2.
Proof.
  rewrite !evaluate_answer_unfold. cbn [fst snd].
  by rewrite filter_app, len_app.
Qed.

(** X5: matching is by substring, so a keyword contained (lowercased) in
    another keyword is matched whenever that other keyword is: "log" is
    matched by every answer that matches "logarithmic". *)
Theorem contained_keyword_matches (answer kw1 kw2 : string) (kws : list string) :
  substring_of (lower kw1) (lower kw2) → kw1 ∈ kws →
  kw2 ∈ (evaluate_answer answer kws).2 → kw1 ∈ (evaluate_answer answer kws).2.
Proof.
  intros Hsub Hin. rewrite !(proj1 (evaluate_answer_words answer kws)).
  rewrite !list_elem_of_filter. intros [Hm _]. split; [|done].
  by eapply substring_of_trans.
Qed.
End ScoringMore.

(** ** More on the session question list *)

Lemma filter_tagged (c tag : string) (l : list question) :
  filter (λ x : string * question, x.1 = c) ((λ qu, (tag, qu)) <$> l)
  = if decide (tag = c) then (λ qu, (tag, qu)) <$> l else [].
Proof.
  induction l as [|x l IH]; [by destruct (decide (tag = c)) |].
  rewrite fmap_cons. destruct (decide (tag = c)) as [Heq|Hne].
  - rewrite filter_cons_True by done. by rewrite IH.
  - by rewrite filter_cons_False by done.
Qed.

Lemma snd_tagged (tag : string) (l : list question) :
  ((λ qu, (tag, qu)) <$> l).*2 = l.
Proof. rewrite <- list_fmap_compose. apply list_fmap_id. Qed.

Lemma round_robin_keeps_samples (tech hr : list question) :
  length (round_robin tech hr) = (length tech + length hr)%nat
  ∧ (filter (λ x, x.1 = "Technical") (round_robin tech hr)).*2 = tech
  ∧ (filter (λ x, x.1 = "HR") (round_robin tech hr)).*2 = hr.
Proof.
  revert hr. induction tech as [|t tech IH]; intros hr.
  - cbn [round_robin]. rewrite length_fmap, !filter_tagged.
    rewrite decide_False by done. rewrite decide_True by done.
    by rewrite snd_tagged.
  - destruct hr as [|h hr].
    + rewrite round_robin_nil_r, length_fmap, !filter_tagged.
      rewrite decide_True by done. rewrite decide_False by done.
      rewrite snd_tagged. simpl. split_and!; [lia | done | done].
    + cbn [round_robin]. destruct (IH hr) as (Hlen & Ht & Hh).
      rewrite (filter_cons_True (λ x, x.1 = "Technical") ("Technical", t)) by done.
      rewrite (filter_cons_False (λ x, x.1 = "Technical") ("HR", h)) by done.
      rewrite (filter_cons_False (λ x, x.1 = "HR") ("Technical", t)) by done.
      rewrite (filter_cons_True (λ x, x.1 = "HR") ("HR", h)) by done.
      rewrite !fmap_cons, Ht, Hh. simpl. split_and!; [lia | done | done].
Qed.

(** X6: interleaving two samples never raises; the list it returns has
    as many entries as the two samples together, and read off by section
    it gives back the technical sample and the HR sample, each in its
    own order. *)
Theorem interleave_keeps_samples (tech hr : list question) :
  ∃ qs, interleave tech hr = Ok qs
        ∧ len qs = len tech + len hr
        ∧ (filter (λ x, x.1 = "Technical") qs).*2 = tech
        ∧ (filter (λ x, x.1 = "HR") qs).*2 = hr.
Proof.
  exists (round_robin tech hr). split; [apply interleave_round_robin |].
  destruct (round_robin_keeps_samples tech hr) as (Hlen & Ht & Hh).
  split_and!; try done. unfold len. lia.
Qed.

Lemma catalogs_NoDup : NoDup TECHNICAL_QUESTIONS ∧ NoDup HR_QUESTIONS.
Proof. split; by apply (bool_decide_unpack _). Qed.

(** X7: whatever the random stream, [_prepare_questions] returns five
    questions in the order Technical, HR, Technical, HR, Technical; the
    three technical ones are the whole technical catalog in some order,
    and the two HR ones are two different entries of the HR catalog. *)
Theorem prepare_questions_shape (rng : nat → Z) :
  ∃ t1 t2 t3 h1 h2,
    _prepare_questions rng
    = Ok [("Technical", t1); ("HR", h1); ("Technical", t2); ("HR", h2);
          ("Technical", t3)]
    ∧ [t1; t2; t3] ≡ₚ TECHNICAL_QUESTIONS
    ∧ h1 ≠ h2 ∧ h1 ∈ HR_QUESTIONS ∧ h2 ∈ HR_QUESTIONS.
Proof.
  unfold _prepare_questions, sample.
  destruct (random_sample_ok rng TECHNICAL_QUESTIONS
              (Z.min NUM_TECH (len TECHNICAL_QUESTIONS)))
    as (tech & trest & -> & Htl & Htp); [done |].
  cbn [mbind result_bind].
  destruct (random_sample_ok (λ i, rng (length tech + i)%nat) HR_QUESTIONS
              (Z.min NUM_HR (len HR_QUESTIONS)))
    as (hr & hrest & -> & Hhl & Hhp); [done |].
  cbn [mbind result_bind]. rewrite interleave_round_robin.
  pose proof (Permutation_length Htp) as Htlen.
  rewrite length_app in Htlen.
  assert (length tech = 3%nat) as Ht3 by (apply Nat2Z.inj; exact Htl).
  assert (length hr = 2%nat) as Hh2 by (apply Nat2Z.inj; exact Hhl).
  destruct tech as [|t1 [|t2 [|t3 [|]]]]; try done.
  destruct hr as [|h1 [|h2 [|]]]; try done.
  destruct trest; [|done]. rewrite app_nil_r in Htp.
  exists t1, t2, t3, h1, h2. split_and!; try done.
  - destruct catalogs_NoDup as [_ Hnd]. rewrite <- Hhp in Hnd.
    apply NoDup_app in Hnd as (Hnd & _ & _).
    apply NoDup_cons in Hnd as [Hnin _]. intros ->. apply Hnin.
    apply elem_of_cons. by left.
  - rewrite <- Hhp. apply elem_of_app. left. apply elem_of_cons. by left.
  - rewrite <- Hhp. apply elem_of_app. left.
    apply elem_of_cons. right. apply elem_of_cons. by left.
Qed.

(** ** More on the session *)

Section SessionMore.
Context `{PyStr}.

Lemma evaluated_slide_layout (ans : string) (sl : QuestionSlide) :
  index (evaluated_slide ans sl) = index sl
  ∧ total (evaluated_slide ans sl) = total sl
  ∧ bg (evaluated_slide ans sl) = bg sl.
Proof.
  unfold evaluated_slide.
  destruct (evaluate_answer _ _) as [[m fb] ws]. by destruct ws.
Qed.

Lemma evaluate_current_effect (ans : string) (s : App) :
  wf s →
  ∃ s', evaluate_current ans s = Ok s' ∧ wf s'
        ∧ questions s' = questions s ∧ current_idx s' = current_idx s
        ∧ summary_sub s' = summary_sub s
        ∧ ((current_idx s = N s ∧ s' = s) ∨ answered ans s s').
Proof.
  intros Hwf. pose proof (wf_len_slides s Hwf) as Hlen.
  pose proof (wf_idx s Hwf) as Hidx. unfold N in *.
  destruct (evaluate_current_wf ans s Hwf) as (s' & Hs' & Hwf' & Hi & Hq).
  exists s'. split_and!; try done.
  - destruct (decide (current_idx s < N s)) as [Hact|Hsum].
    + destruct (evaluate_current_active ans s Hwf Hact) as (sl & _ & Hs).
      rewrite Hs in Hs'. by injection Hs' as <-.
    + unfold N in Hsum. rewrite evaluate_current_summary in Hs' by lia.
      by injection Hs' as <-.
  - destruct (decide (current_idx s < N s)) as [Hact|Hsum].
    + right. destruct (evaluate_current_active ans s Hwf Hact) as (sl & Hsl & Hs).
      rewrite Hs in Hs'. injection Hs' as <-. by exists sl.
    + left. unfold N in *. rewrite evaluate_current_summary in Hs' by lia.
      injection Hs' as <-. split; [lia | done].
Qed.

(** [next_slide] is [evaluate_current] followed by showing the next
    slide or the summary. *)
Lemma next_slide_cases (ans : string) (s : App) :
  wf s →
  ∃ s1, evaluate_current ans s = Ok s1 ∧ wf s1
        ∧ questions s1 = questions s ∧ current_idx s1 = current_idx s
        ∧ ((current_idx s = N s ∧ s1 = s) ∨ answered ans s s1)
        ∧ ((current_idx s < N s - 1
            ∧ next_slide ans s = _show_slide (current_idx s + 1) s1)
           ∨ (N s - 1 ≤ current_idx s ∧ next_slide ans s = _show_summary s1)).
Proof.
  intros Hwf.
  destruct (evaluate_current_effect ans s Hwf)
    as (s1 & Hs1 & Hwf1 & Hq & Hi & _ & Heff).
  exists s1. split_and!; try done.
  unfold next_slide. rewrite Hs1. cbn [mbind result_bind].
  pose proof (wf_len_slides s1 Hwf1) as Hlen. unfold N in *.
  rewrite Hlen, Hq, Hi.
  destruct (Z.ltb_spec (current_idx s) (len (questions s) - 1)); [left | right]; done.
Qed.

Lemma show_slide_fields (idx : Z) (s s' : App) :
  _show_slide idx s = Ok s' →
  questions s' = questions s ∧ unchanged s s'
  ∧ summary_sub s' = summary_sub s ∧ current_idx s' = idx.
Proof. intros Hs. by apply show_slide_inv in Hs as [_ ->]. Qed.

Lemma show_summary_fields (s s' : App) :
  wf s → _show_summary s = Ok s' →
  wf s' ∧ questions s' = questions s ∧ unchanged s s' ∧ current_idx s' = N s.
Proof.
  intros Hwf Hs.
  destruct (show_summary_wf s Hwf) as (s'' & Hs'' & ? & ? & ? & ? & ? & ? & ?).
  assert (s' = s'') as -> by congruence. done.
Qed.

(** Showing the summary twice shows the same summary. *)
Lemma show_summary_again (s s' : App) :
  wf s → _show_summary s = Ok s' → _show_summary s' = Ok s'.
Proof.
  intros Hwf Hs. pose proof Hs as Hs0. unfold _show_summary in Hs.
  rewrite summary_totals_ok in Hs by done. cbn [mbind result_bind] in Hs.
  match type of Hs with
  | context [for_each (detail_round s) ?ls _] =>
      destruct (detail_loop_ok s ls Hwf) as (lines' & Hlines)
  end.
  rewrite Hlines in Hs. cbn [mbind result_bind] in Hs.
  apply show_slide_inv in Hs as [Hne Hs']. cbn [slides set_summary_sub] in Hne.
  destruct (show_summary_fields s s' Hwf Hs0) as (Hwf' & _).
  unfold _show_summary. rewrite summary_totals_ok by done.
  cbn [mbind result_bind].
  assert (questions s' = questions s ∧ scores s' = scores s
          ∧ answers s' = answers s ∧ slides s' = slides s
          ∧ dialogs s' = dialogs s) as (Hq & Hsc & Ha & Hsl & Hd)
    by (by rewrite Hs').
  assert (∀ ls it, detail_round s' ls it = detail_round s ls it) as Hdr.
  { intros ls [i [sect qd]]. unfold detail_round. by rewrite Ha, Hsc. }
  assert (∀ ls l, for_each (detail_round s') ls l = for_each (detail_round s) ls l)
    as Hfe.
  { intros ls l. revert ls. induction l as [|x l IH]; intros ls; [done |].
    cbn [for_each]. rewrite Hdr. destruct (detail_round s ls x); [|done].
    cbn [mbind result_bind]. apply IH. }
  rewrite Hfe, Hq, Hsc, Hlines. cbn [mbind result_bind].
  rewrite show_slide_ok by (cbn [slides set_summary_sub]; by rewrite Hsl).
  clear Hq Hsc Ha Hsl Hd Hdr Hfe Hwf' Hs0. subst s'. reflexivity.
Qed.

Lemma build_slides_layout (tot : Z) (qs : list (string * question)) (a : Z)
    (sl0 : list QuestionSlide) :
  ∃ sl, for_each (build_slide tot) sl0 (enumerate a qs) = Ok (sl0 ++ sl)
    ∧ ∀ i x, sl !! i = Some x →
        index x = a + Z.of_nat i ∧ total x = tot
        ∧ getitem colors ((a + Z.of_nat i) `mod` len colors) = Ok (bg x)
        ∧ ∃ sect, qs !! i = Some (sect, question_data x).
Proof.
  revert a sl0. induction qs as [|[sect qdata] qs IH]; intros a sl0.
  - exists []. rewrite app_nil_r. split; [done |]. intros i x Hx. done.
  - cbn [enumerate for_each build_slide].
    destruct (getitem_in_range colors (a `mod` len colors)) as (c & Hc & _).
    { apply Z.mod_pos_bound. done. }
    rewrite Hc. cbn [mbind result_bind].
    destruct (IH (a + 1) (sl0 ++ [{| question_data := qdata; index := a;
                                     total := tot; bg := c; fb_var := "";
                                     hint_var := "" |}]))
      as (sl & -> & Hsl).
    eexists (_ :: sl). rewrite <- app_assoc. split; [done |].
    intros [|i] x Hx.
    + injection Hx as <-. cbn [index total bg question_data lookup list_lookup].
      rewrite Z.add_0_r. split_and!; try done. by exists sect.
    + destruct (Hsl i x Hx) as (Hi & Ht & Hb & Hq).
      replace (a + Z.of_nat (S i)) with (a + 1 + Z.of_nat i) by lia. done.
Qed.

Lemma start_layout (qs : list (string * question)) (s : App) :
  start qs = Ok s → slides_laid_out s.
Proof.
  unfold start, _build_slides. cbn [questions slides].
  destruct (build_slides_layout (len qs) qs 1 []) as (sl & -> & Hsl).
  cbn [mbind result_bind app]. intros Hs.
  apply show_slide_inv in Hs as [_ ->].
  intros i x Hx. cbn [slides set_slides set_summary_sub] in Hx.
  destruct (Hsl i x Hx) as (Hi & Ht & Hb & Hq). unfold N. cbn [questions].
  replace (Z.of_nat i + 1) with (1 + Z.of_nat i) by lia. done.
Qed.

Lemma unchanged_refl (s : App) : unchanged s s.
Proof. done. Qed.

Lemma unchanged_consistent (s s' : App) :
  questions s' = questions s → unchanged s s' →
  (records_consistent s → records_consistent s')
  ∧ (slides_laid_out s → slides_laid_out s').
Proof.
  intros Hq (Ha & Hsc & Hsl & _). unfold records_consistent, slides_laid_out, N.
  rewrite Hq, Ha, Hsc, Hsl. done.
Qed.

Lemma answered_consistent (ans : string) (s s' : App) :
  wf s → questions s' = questions s → answered ans s s' →
  (records_consistent s → records_consistent s')
  ∧ (slides_laid_out s → slides_laid_out s').
Proof.
  intros Hwf Hq (sl & Hact & Hsl & Hsl' & Ha' & Hsc' & _).
  set (k := Z.to_nat (current_idx s)) in *.
  pose proof (wf_slides s Hwf) as Hm.
  assert (k < length (slides s))%nat as Hk by (by eapply lookup_lt_Some).
  assert (k < length (answers s))%nat as Hka.
  { pose proof (wf_answers s Hwf). pose proof (wf_len_slides s Hwf).
    unfold N, len in *. lia. }
  assert (k < length (scores s))%nat as Hks.
  { pose proof (wf_scores s Hwf). pose proof (wf_len_slides s Hwf).
    unfold N, len in *. lia. }
  split.
  - intros Hrec i sect qd a m x. rewrite Hq, Ha', Hsc', Hsl'.
    destruct (decide (i = k)) as [->|Hne].
    + rewrite !list_lookup_insert_eq by done.
      intros Hqi [= <-] [= <-] [= <-]. right.
      assert (question_data sl = qd) as <-.
      { apply (f_equal (λ l, l !! k)) in Hm.
        rewrite !list_lookup_fmap, Hsl, Hqi in Hm. simpl in Hm. congruence. }
      rewrite (proj2 (evaluated_slide_data ans sl)), evaluated_slide_hint. done.
    + rewrite !list_lookup_insert_ne by done. apply Hrec.
  - intros Hlay i x. unfold N. rewrite Hq, Hsl'.
    destruct (decide (i = k)) as [->|Hne].
    + rewrite list_lookup_insert_eq by done. intros [= <-].
      destruct (evaluated_slide_layout ans sl) as (-> & -> & ->).
      rewrite (proj1 (evaluated_slide_data ans sl)). by apply Hlay.
    + rewrite list_lookup_insert_ne by done. apply Hlay.
Qed.

(** A command stores nothing or stores one evaluated answer. *)
Lemma run_effect (o : op) (s : App) :
  wf s →
  ∃ s', run o s = Ok s' ∧ wf s' ∧ questions s' = questions s
        ∧ (unchanged s s' ∨ ∃ ans, answered ans s s').
Proof.
  intros Hwf. destruct o as [ans|ans|]; cbn [run].
  - destruct (evaluate_current_effect ans s Hwf)
      as (s' & Hs' & Hwf' & Hq & _ & _ & [[_ ->]|Hans]).
    + exists s. split_and!; try done. by left.
    + exists s'. split_and!; try done. right. by exists ans.
  - destruct (next_slide_cases ans s Hwf)
      as (s1 & Hs1 & Hwf1 & Hq1 & Hi1 & Heff & Hnext).
    destruct (next_slide_wf ans s Hwf) as (s' & Hs' & Hwf' & _ & Hq').
    exists s'. split_and!; try done.
    assert (unchanged s1 s') as Hun.
    { destruct Hnext as [[_ Hn]|[_ Hn]]; rewrite Hn in Hs'.
      - by apply show_slide_fields in Hs' as (_ & ? & _).
      - by apply (show_summary_fields s1 s' Hwf1) in Hs' as (_ & _ & ? & _). }
    destruct Hun as (Ha & Hsc & Hsl & Hd).
    destruct Heff as [[_ ->]|(sl & Hact & Hsl0 & Hsl1 & Ha1 & Hsc1 & Hd1)].
    + by left.
    + right. exists ans, sl. rewrite Ha, Hsc, Hsl, Hd. done.
  - destruct (prev_slide_wf s Hwf) as (s' & Hs' & Hwf' & _ & Hq & ? & ? & ? & ?).
    exists s'. split_and!; try done. by left.
Qed.

(** The invariants of the stored records, and the summary position being
    a fixed point of showing the summary. *)
Lemma reachable_records (s : App) :
  reachable s →
  records_consistent s ∧ slides_laid_out s
  ∧ (current_idx s = N s → _show_summary s = Ok s).
Proof.
  induction 1 as [qs s Hs|o s s' Hr (Hrec & Hlay & Hfix) Hrun].
  - pose proof (start_layout qs s Hs) as Hlay.
    apply start_inv in Hs as (Hwf & Hidx & Hq & Ha & Hsc & Hfb).
    split_and!; [|done|].
    + intros i sect qd a m x _. rewrite Ha, Hsc.
      intros [-> _]%lookup_replicate [-> _]%lookup_replicate Hx.
      left. rewrite Forall_lookup in Hfb. by destruct (Hfb i x Hx).
    + pose proof (wf_nonempty s Hwf). unfold N. lia.
  - pose proof (reachable_wf s Hr) as Hwf.
    destruct (run_effect o s Hwf) as (s'' & Hrun' & Hwf' & Hq & Heff).
    assert (s'' = s') as -> by congruence.
    assert (records_consistent s' ∧ slides_laid_out s') as [Hrec' Hlay'].
    { destruct Heff as [Hun|[ans Hans]].
      - destruct (unchanged_consistent s s' Hq Hun). auto.
      - destruct (answered_consistent ans s s' Hwf Hq Hans). auto. }
    split_and!; try done.
    pose proof (wf_nonempty s Hwf) as Hne. pose proof (wf_idx s Hwf) as Hidx.
    unfold N in *. rewrite Hq. intros Hsum.
    destruct o as [ans|ans|]; cbn [run] in Hrun.
    + destruct (evaluate_current_effect ans s Hwf)
        as (s1 & Hs1 & _ & _ & Hi & _ & _).
      assert (s1 = s') as -> by congruence.
      assert (len (slides s) ≤ current_idx s) as Hge
        by (rewrite (wf_len_slides s Hwf); unfold N; lia).
      rewrite evaluate_current_summary in Hrun by done.
      injection Hrun as <-. apply Hfix. lia.
    + destruct (next_slide_cases ans s Hwf)
        as (s1 & Hs1 & Hwf1 & Hq1 & Hi1 & _ & [[Hlt Hn]|[Hge Hn]]);
        rewrite Hn in Hrun.
      * apply show_slide_fields in Hrun as (_ & _ & _ & Hi'). unfold N in *. lia.
      * by eapply show_summary_again.
    + destruct (prev_slide_wf s Hwf) as (s1 & Hs1 & _ & Hi & _).
      assert (s1 = s') as -> by congruence. lia.
Qed.
End SessionMore.

(** ** Starting a session *)

(** X8: a session cannot start without questions: [start] raises
    ZeroDivisionError on the empty list (the progress computation divides
    by the number of slides).  On any other list it returns the state at
    the first question, every answer empty and every score 0, the
    Previous button disabled, the Next button enabled, nothing shown
    yet and the placeholder text on the summary slide. *)
Theorem start_needs_a_question (qs : list (string * question)) :
  (qs = [] → start qs = Raise ZeroDivisionError)
  ∧ (qs ≠ [] →
     ∃ s, start qs = Ok s ∧ questions s = qs ∧ current_idx s = 0
          ∧ len (slides s) = len qs
          ∧ answers s = replicate (length qs) ""
          ∧ scores s = replicate (length qs) 0
          ∧ btn_prev s = false ∧ btn_next s = true ∧ dialogs s = []
          ∧ summary_sub s = "Your detailed summary will appear here.").
Proof.
  split; [by intros -> |]. intros Hqs.
  unfold start, _build_slides. cbn [questions slides].
  destruct (build_slides_loop (len qs) qs 1 []) as (sl & -> & Hsl & _).
  cbn [mbind result_bind app].
  assert (len sl = len qs) as Hlen
    by (rewrite <- (len_fmap question_data), Hsl; apply len_fmap).
  assert (0 < len qs) as Hpos by (destruct qs; [done | unfold len; simpl; lia]).
  rewrite show_slide_ok by (cbn [slides set_slides set_summary_sub]; lia).
  eexists. split; [done |].
  cbn [questions current_idx slides answers scores summary_sub btn_prev
       btn_next dialogs set_slides set_summary_sub].
  split_and!; try done. apply Z.ltb_lt. lia.
Qed.

Lemma prepare_questions_ok (rng : nat → Z) :
  ∃ qs, _prepare_questions rng = Ok qs ∧ length qs = 5%nat.
Proof.
  unfold _prepare_questions, sample.
  destruct (random_sample_ok rng TECHNICAL_QUESTIONS
              (Z.min NUM_TECH (len TECHNICAL_QUESTIONS)))
    as (tech & _ & -> & Htl & _); [done |].
  cbn [mbind result_bind].
  destruct (random_sample_ok (λ i, rng (length tech + i)%nat) HR_QUESTIONS
              (Z.min NUM_HR (len HR_QUESTIONS)))
    as (hr & _ & -> & Hhl & _); [done |].
  cbn [mbind result_bind]. rewrite interleave_round_robin.
  eexists; split; [done |].
  rewrite (proj1 (round_robin_keeps_samples tech hr)).
  assert (length tech = 3%nat) as -> by (apply Nat2Z.inj; exact Htl).
  assert (length hr = 2%nat) as -> by (apply Nat2Z.inj; exact Hhl). done.
Qed.

(** X9: whatever the random stream, [__init__] raises nothing and
    returns the state at the first of five questions, with five empty
    answers and five zero scores. *)
Theorem init_never_raises (rng : nat → Z) :
  ∃ s, __init__ rng = Ok s ∧ N s = 5 ∧ current_idx s = 0
       ∧ answers s = replicate 5 "" ∧ scores s = replicate 5 0
       ∧ len (slides s) = 5.
Proof.
  unfold __init__. destruct (prepare_questions_ok rng) as (qs & -> & Hlen).
  cbn [mbind result_bind].
  destruct (start_ok qs) as (s & Hs); [by destruct qs |].
  exists s. split; [done |].
  pose proof Hs as Hs'.
  apply start_inv in Hs' as (Hwf & Hidx & Hq & Ha & Hsc & _).
  pose proof (wf_len_slides s Hwf) as Hsl. unfold N in *.
  rewrite Hq in *. unfold len in *. rewrite Hlen in *. done.
Qed.

(** ** Progress *)

Section ProgressTheorems.
Context `{PyStr}.



End ProgressTheorems.

Section SessionExtras.
Context `{PyStr}.

(** X10: in every reachable state there is one slide per question, and
    slide [i] is still the one built for question [i]: it carries that
    question, the number [i + 1], the total number of questions and the
    palette colour at [(i + 1) % 5]. *)
Theorem slides_stay_laid_out (s : App) :
  reachable s →
  len (slides s) = N s
  ∧ ∀ i sl, slides s !! i = Some sl →
      index sl = Z.of_nat i + 1 ∧ total sl = N s
      ∧ getitem colors ((Z.of_nat i + 1) `mod` len colors) = Ok (bg sl)
      ∧ ∃ sect, questions s !! i = Some (sect, question_data sl).
Proof.
  intros Hs. split.
  - apply wf_len_slides. by apply reachable_wf.
  - by destruct (reachable_records s Hs) as (_ & Hlay & _).
Qed.

(** X11: in every reachable state the Previous button is enabled
    exactly when the position is past the first question, and the Next
    button exactly when the position is a question (not the summary). *)
Theorem buttons_follow_position (s : App) :
  reachable s →
  (btn_prev s = true ↔ 0 < current_idx s)
  ∧ (btn_next s = true ↔ current_idx s < N s).
Proof.
  intros Hs. pose proof (reachable_wf s Hs) as Hwf.
  rewrite (wf_prev s Hwf), (wf_next s Hwf), (wf_len_slides s Hwf).
  split; apply Z.ltb_lt.
Qed.

(** X12: in every reachable state each question is either untouched
    (empty answer, score 0, no feedback, no hint) or its stored score,
    feedback and hint are those of [evaluate_answer] on its stored
    answer and its own keywords. *)
Theorem stored_records_are_evaluations (s : App) :
  reachable s →
  ∀ i sect qd a m sl,
    questions s !! i = Some (sect, qd) → answers s !! i = Some a →
    scores s !! i = Some m → slides s !! i = Some sl →
    (a = "" ∧ m = 0 ∧ fb_var sl = "" ∧ hint_var sl = "")
    ∨ (m = (evaluate_answer a (keywords qd)).1.1
       ∧ fb_var sl = (evaluate_answer a (keywords qd)).1.2
       ∧ hint_var sl = hint_text (evaluate_answer a (keywords qd)).2).
Proof.
  intros Hs. by destruct (reachable_records s Hs) as (Hrec & _).
Qed.

Lemma sum_pointwise (l k : list Z) :
  length l = length k →
  (∀ i x y, l !! i = Some x → k !! i = Some y → x ≤ y) → sum l ≤ sum k.
Proof.
  revert k. induction l as [|x l IH]; intros [|y k] Hlen Hle; try done.
  rewrite !sum_cons.
  assert (x ≤ y) by (by apply (Hle 0%nat)).
  assert (sum l ≤ sum k); [|lia].
  apply IH; [simpl in Hlen; lia |]. intros i a b Ha Hb. by apply (Hle (S i)).
Qed.

Lemma sum_nonneg (l : list Z) : Forall (λ x, 0 ≤ x) l → 0 ≤ sum l.
Proof.
  induction 1 as [|x l Hx _ IH]; [done |]. rewrite sum_cons. lia.
Qed.

(** X13: in every reachable state each stored score lies between 0 and
    the number of keywords of its question, so the total score lies
    between 0 and the total of possible points. *)
Theorem scores_within_possible (s : App) :
  reachable s →
  (∀ i sect qd m, questions s !! i = Some (sect, qd) → scores s !! i = Some m →
                  0 ≤ m ≤ len (keywords qd))
  ∧ 0 ≤ sum (scores s) ≤ sum ((λ qu, len (keywords qu.2)) <$> questions s).
Proof.
  intros Hs. pose proof (reachable_wf s Hs) as Hwf.
  destruct (reachable_records s Hs) as (Hrec & _).
  pose proof (wf_len_slides s Hwf) as Hsl. pose proof (wf_answers s Hwf) as Ha.
  pose proof (wf_scores s Hwf) as Hsc. unfold N, len in *.
  assert (∀ i sect qd m, questions s !! i = Some (sect, qd) →
            scores s !! i = Some m → 0 ≤ m ≤ Z.of_nat (length (keywords qd)))
    as Hb.
  { intros i sect qd m Hq Hm. pose proof (lookup_lt_Some _ _ _ Hq) as Hlt.
    destruct (lookup_lt_is_Some_2 (answers s) i) as [a Hai]; [lia |].
    destruct (lookup_lt_is_Some_2 (slides s) i) as [sl Hsli]; [lia |].
    destruct (Hrec i sect qd a m sl Hq Hai Hm Hsli) as [(_ & -> & _)|(-> & _)].
    - lia.
    - apply evaluate_answer_bounds. }
  split; [exact Hb |]. split.
  - apply sum_nonneg, Forall_lookup. intros i m Hm.
    pose proof (lookup_lt_Some _ _ _ Hm) as Hlt.
    destruct (lookup_lt_is_Some_2 (questions s) i) as [[sect qd] Hq]; [lia |].
    by destruct (Hb i sect qd m Hq Hm).
  - apply sum_pointwise; [rewrite length_fmap; lia |].
    intros i m y Hm. rewrite list_lookup_fmap.
    destruct (questions s !! i) as [[sect qd]|] eqn:Hq; [|done].
    intros [= <-]. by destruct (Hb i sect qd m Hq Hm).
Qed.

(** X14: pressing Next on a question stores the answer as a submission
    would, shows the one feedback dialog of that submission, and then
    moves one position forward. *)
Theorem next_slide_evaluates_first (s : App) (ans : string) :
  reachable s → current_idx s < N s →
  ∃ s1 s', evaluate_current ans s = Ok s1 ∧ next_slide ans s = Ok s'
    ∧ answers s' = answers s1 ∧ scores s' = scores s1
    ∧ slides s' = slides s1 ∧ dialogs s' = dialogs s1
    ∧ answers s' !! Z.to_nat (current_idx s) = Some ans
    ∧ length (dialogs s') = S (length (dialogs s))
    ∧ current_idx s' = current_idx s + 1.
Proof.
  intros Hs Hact. pose proof (reachable_wf s Hs) as Hwf.
  destruct (next_slide_cases ans s Hwf)
    as (s1 & Hs1 & Hwf1 & Hq1 & Hi1 & Heff & Hnext).
  destruct (next_slide_wf ans s Hwf) as (s' & Hs' & Hwf' & Hi' & Hq').
  exists s1, s'. split; [done |]. split; [done |].
  assert (unchanged s1 s') as (Ha & Hsc & Hsl & Hd).
  { destruct Hnext as [[_ Hn]|[_ Hn]]; rewrite Hn in Hs'.
    - by apply show_slide_fields in Hs' as (_ & ? & _).
    - by apply (show_summary_fields s1 s' Hwf1) in Hs' as (_ & _ & ? & _). }
  destruct Heff as [[Hsum _]|(sl & _ & Hsl0 & _ & Ha1 & _ & Hd1)]; [lia |].
  split_and!; try done.
  - rewrite Ha, Ha1. apply list_lookup_insert_eq.
    pose proof (wf_answers s Hwf). pose proof (wf_idx s Hwf).
    unfold N, len in *. lia.
  - rewrite Hd, Hd1, length_app. simpl. lia.
  - lia.
Qed.

(** X15: pressing Previous evaluates nothing: it raises nothing, moves
    one position back (staying at the first question), and leaves the
    questions, answers, scores, slides, dialogs and summary text as they
    were. *)
Theorem prev_slide_only_moves (s : App) :
  reachable s →
  ∃ s', prev_slide s = Ok s'
    ∧ current_idx s' = Z.max (current_idx s - 1) 0
    ∧ questions s' = questions s ∧ answers s' = answers s
    ∧ scores s' = scores s ∧ slides s' = slides s
    ∧ dialogs s' = dialogs s ∧ summary_sub s' = summary_sub s.
Proof.
  intros Hs. pose proof (reachable_wf s Hs) as Hwf.
  destruct (prev_slide_wf s Hwf)
    as (s' & Hs' & _ & Hi & Hq & Hsl & Ha & Hsc & Hd).
  exists s'. split_and!; try done.
  unfold prev_slide in Hs'. destruct (0 <? current_idx s).
  - by apply show_slide_fields in Hs' as (_ & _ & ? & _).
  - by injection Hs' as <-.
Qed.

(** X16: from a question, Next followed by Previous returns to the same
    question, with the answer given at Next stored there. *)
Theorem next_then_prev_returns (s : App) (ans : string) :
  reachable s → current_idx s < N s →
  ∃ s1 s2, next_slide ans s = Ok s1 ∧ prev_slide s1 = Ok s2
    ∧ current_idx s2 = current_idx s
    ∧ answers s2 !! Z.to_nat (current_idx s) = Some ans
    ∧ questions s2 = questions s.
Proof.
  intros Hs Hact. pose proof (reachable_wf s Hs) as Hwf.
  pose proof (wf_idx s Hwf) as Hidx.
  destruct (next_slide_cases ans s Hwf)
    as (s0 & Hs0 & Hwf0 & _ & _ & Heff & Hnext).
  destruct (next_slide_wf ans s Hwf) as (s1 & Hs1 & Hwf1 & Hi1 & Hq1).
  destruct (prev_slide_wf s1 Hwf1)
    as (s2 & Hs2 & _ & Hi2 & Hq2 & _ & Ha2 & _).
  exists s1, s2. split_and!; try done.
  - lia.
  - assert (unchanged s0 s1) as (Ha & _).
    { destruct Hnext as [[_ Hn]|[_ Hn]]; rewrite Hn in Hs1.
      - by apply show_slide_fields in Hs1 as (_ & ? & _).
      - by apply (show_summary_fields s0 s1 Hwf0) in Hs1 as (_ & _ & ? & _). }
    destruct Heff as [[Hsum _]|(sl & _ & _ & _ & Ha0 & _)]; [lia |].
    rewrite Ha2, Ha, Ha0. apply list_lookup_insert_eq.
    pose proof (wf_answers s Hwf). unfold N, len in *. lia.
  - congruence.
Qed.

Lemma run_all_next (anss : list string) (s : App) :
  wf s →
  ∃ s', run_all (Next <$> anss) s = Ok s' ∧ wf s'
        ∧ current_idx s' = Z.min (current_idx s + len anss) (N s)
        ∧ questions s' = questions s.
Proof.
  revert s. induction anss as [|ans anss IH]; intros s Hwf.
  - exists s. pose proof (wf_idx s Hwf). unfold N, len in *. simpl.
    split_and!; try done. lia.
  - cbn [fmap list_fmap run_all for_each run].
    destruct (next_slide_wf ans s Hwf) as (s1 & -> & Hwf1 & Hi1 & Hq1).
    cbn [mbind result_bind].
    destruct (IH s1 Hwf1) as (s' & Hs' & Hwf' & Hi' & Hq').
    exists s'. split; [exact Hs' |]. split; [done |].
    unfold N in *. rewrite Hq1 in *. split; [|congruence].
    unfold len in *. simpl. lia.
Qed.

(** X17: pressing Next [k] times from position [i] raises nothing and
    ends at position [min(i + k, N)], whatever the answers; so the
    summary is reached after [N - i] presses and further presses stay
    there. *)
Theorem repeated_next_reaches_summary (s : App) (anss : list string) :
  reachable s →
  ∃ s', run_all (Next <$> anss) s = Ok s'
        ∧ current_idx s' = Z.min (current_idx s + len anss) (N s)
        ∧ questions s' = questions s.
Proof.
  intros Hs. destruct (run_all_next anss s (reachable_wf s Hs))
    as (s' & ? & _ & ? & ?). by exists s'.
Qed.

Lemma run_all_prev (k : nat) (s : App) :
  wf s →
  ∃ s', run_all (replicate k Prev) s = Ok s' ∧ wf s'
        ∧ current_idx s' = Z.max (current_idx s - Z.of_nat k) 0
        ∧ questions s' = questions s ∧ unchanged s s'.
Proof.
  revert s. induction k as [|k IH]; intros s Hwf.
  - exists s. pose proof (wf_idx s Hwf). split_and!; try done. lia.
  - cbn [replicate run_all for_each run].
    destruct (prev_slide_wf s Hwf)
      as (s1 & -> & Hwf1 & Hi1 & Hq1 & Hsl1 & Ha1 & Hsc1 & Hd1).
    cbn [mbind result_bind].
    destruct (IH s1 Hwf1) as (s' & Hs' & Hwf' & Hi' & Hq' & Ha & Hsc & Hsl & Hd).
    exists s'. split; [exact Hs' |]. split; [done |].
    split; [lia |]. split; [congruence |]. unfold unchanged. split_and!; congruence.
Qed.

(** X18: pressing Previous [k] times from position [i] raises nothing,
    ends at position [max(i - k, 0)], and changes no answer, score, slide
    or dialog. *)
Theorem repeated_prev_stops_at_first (s : App) (k : nat) :
  reachable s →
  ∃ s', run_all (replicate k Prev) s = Ok s'
        ∧ current_idx s' = Z.max (current_idx s - Z.of_nat k) 0
        ∧ answers s' = answers s ∧ scores s' = scores s
        ∧ slides s' = slides s ∧ dialogs s' = dialogs s.
Proof.
  intros Hs. destruct (run_all_prev k s (reachable_wf s Hs))
    as (s' & ? & _ & ? & _ & ? & ? & ? & ?). by exists s'.
Qed.

(** X19: in the summary position [next_slide] changes nothing at all:
    it returns the very state it was called in, whatever text is passed. *)
Theorem next_slide_at_summary_is_identity (s : App) (ans : string) :
  reachable s → current_idx s = N s → next_slide ans s = Ok s.
Proof.
  intros Hs Hsum. pose proof (reachable_wf s Hs) as Hwf.
  destruct (reachable_records s Hs) as (_ & _ & Hfix).
  pose proof (wf_len_slides s Hwf) as Hlen.
  unfold next_slide. rewrite evaluate_current_summary by lia.
  cbn [mbind result_bind].
  destruct (Z.ltb_spec (current_idx s) (len (slides s) - 1)); [lia |].
  by apply Hfix.
Qed.

(** X20: submitting the same text twice on a question leaves the
    answers, scores and slides as the first submission left them; only
    the feedback dialog is shown a second time. *)
Theorem submit_twice_same_text (s : App) (t : string) :
  reachable s → current_idx s < N s →
  ∃ s1 s2 shown, evaluate_current t s = Ok s1 ∧ evaluate_current t s1 = Ok s2
    ∧ answers s2 = answers s1 ∧ scores s2 = scores s1 ∧ slides s2 = slides s1
    ∧ current_idx s2 = current_idx s1
    ∧ dialogs s1 = dialogs s ++ [shown]
    ∧ dialogs s2 = dialogs s1 ++ [shown].
Proof.
  intros Hs Hact. pose proof (reachable_wf s Hs) as Hwf.
  destruct (evaluate_current_effect t s Hwf)
    as (s1 & Hs1 & Hwf1 & Hq1 & Hi1 & _ & [[Hsum _]|Hans1]); [lia |].
  assert (current_idx s1 < N s1) as Hact1 by (unfold N in *; congruence).
  destruct (evaluate_current_effect t s1 Hwf1)
    as (s2 & Hs2 & Hwf2 & Hq2 & Hi2 & _ & [[Hsum _]|Hans2]); [lia |].
  destruct Hans1 as (sl & _ & Hsl & Hsl1 & Ha1 & Hsc1 & Hd1).
  destruct Hans2 as (sl1 & _ & Hsl' & Hsl2 & Ha2 & Hsc2 & Hd2).
  rewrite Hi1 in *.
  assert (Z.to_nat (current_idx s) < length (slides s))%nat as Hk
    by (by eapply lookup_lt_Some).
  rewrite Hsl1, list_lookup_insert_eq in Hsl' by done. injection Hsl' as <-.
  rewrite (proj1 (evaluated_slide_data t sl)) in *.
  eexists s1, s2, _. split; [done |]. split; [done |].
  split_and!.
  - by rewrite Ha2, Ha1, list_insert_insert_eq.
  - by rewrite Hsc2, Hsc1, list_insert_insert_eq.
  - by rewrite Hsl2, Hsl1, list_insert_insert_eq, evaluated_slide_twice.
  - congruence.
  - exact Hd1.
  - exact Hd2.
Qed.

(** X21: in every reachable state the per-section tallies of the summary
    have one entry for each section that occurs among the questions and
    no other, with no section listed twice. *)
Theorem section_tallies_cover_sections (s : App) :
  reachable s →
  ∃ tot sw, summary_totals s = Ok (tot, sw)
    ∧ NoDup sw.*1
    ∧ ∀ c, c ∈ (questions s).*1 ↔ is_Some (dict_get sw c).
Proof.
  intros Hs. pose proof (reachable_wf s Hs) as Hwf.
  eexists _, _. split; [by apply summary_totals_ok |].
  pose proof (tally_fold (zip (questions s) (scores s))) as (Hkeys & Hget & _).
  assert (item_category <$> zip (questions s) (scores s) = (questions s).*1) as Hcat.
  { transitivity ((zip (questions s) (scores s)).*1).*1;
      [by rewrite <- list_fmap_compose |].
    f_equal. apply fst_zip. pose proof (wf_scores s Hwf). unfold len in *. lia. }
  rewrite Hcat in *. split.
  - rewrite Hkeys. unfold first_seen. rewrite reverse_Permutation.
    apply NoDup_remove_dups.
  - intros c. rewrite Hget. case_decide; split; done.
Qed.
End SessionExtras.

(** ** Examples on 7-bit text *)

Lemma run_all_reachable `{PyStr} (ops : list op) (s s' : App) :
  reachable s → run_all ops s = Ok s' → reachable s'.
Proof.
  revert s. induction ops as [|o ops IH]; intros s Hs; simpl.
  - by intros [= <-].
  - intros Hrun. apply bind_Ok in Hrun as (s1 & Hs1 & Hrun).
    eapply IH; [|exact Hrun]. by eapply reachable_step.
Qed.

Lemma init_reachable `{PyStr} (rng : nat → Z) (s : App) :
  __init__ rng = Ok s → reachable s.
Proof.
  unfold __init__. intros Hs. apply bind_Ok in Hs as (qs & _ & Hs).
  by eapply reachable_start.
Qed.

Lemma demo_run_reachable (ops : list op) (s : App) :
  demo_run ops = Ok s → @reachable ascii_pystr s.
Proof.
  unfold demo_run. intros Hs. apply bind_Ok in Hs as (s0 & Hs0 & Hs).
  eapply run_all_reachable; [|exact Hs]. by eapply init_reachable.
Qed.

#[local] Existing Instance ascii_pystr.

Example first_seen_order :
  first_seen ["Technical"; "HR"; "Technical"; "HR"; "Technical"]
  = ["Technical"; "HR"].
Proof. reflexivity. Qed.

Example evaluate_full :
  evaluate_answer "Lists are mutable, tuples are immutable." ["mutable"; "immutable"]
  = (2, FB_EXCELLENT, ["mutable"; "immutable"]).
Proof. reflexivity. Qed.

Example evaluate_none :
  evaluate_answer "It's about classes."
                  ["inheritance"; "base class"; "derived"; "subclass"]
  = (0, FB_NEEDS_IMPROVEMENT, []).
Proof. reflexivity. Qed.

Example evaluate_case_insensitive :
  evaluate_answer "A LOGARITHMIC bound" ["log"; "Logarithmic"; "O(log n)"]
  = (2, FB_GOOD, ["log"; "Logarithmic"]).
Proof. reflexivity. Qed.

Example evaluate_duplicates :
  evaluate_answer "log" ["log"; "log"] = (2, FB_EXCELLENT, ["log"; "log"]).
Proof. reflexivity. Qed.

Example two_questions_report :
  (s ← start two_questions;
   s ← next_slide "Lists are mutable" s;
   s ← next_slide "" s;
   summary_totals s)
  = Ok (1, 5, [("Technical", {| score := 1; possible := 2 |});
               ("HR", {| score := 0; possible := 3 |})]).
Proof. vm_compute. reflexivity. Qed.

Example two_questions_summary_text :
  match (s ← start two_questions;
         s ← next_slide "Lists are mutable" s;
         next_slide "" s) with
  | Ok s => summary_sub s
  | Raise _ => ""
  end
  = String.concat NL
      ["Total Score: 1 / 5"; "";
       "Technical Score: 1 / 2"; "HR Score: 0 / 3"; "";
       "Detailed answers and feedback:";
       "Q1 (Technical): What is the difference between list and tuple in Python?";
       "  Your answer: Lists are mutable"; "  Score: 1 / 2"; "";
       "Q2 (HR): What are your strengths and weaknesses?";
       "  Your answer: (No answer)"; "  Score: 0 / 3"; ""].
Proof. vm_compute. reflexivity. Qed.

Example progress_of_five :
  (λ i, fmul (fraction i 5) (float_of_int 100)) <$> [0; 1; 2; 3; 4; 5]
  = [S754_zero false;
     S754_finite false 5629499534213120 (-48);     (* 20.0 *)
     S754_finite false 5629499534213120 (-47);     (* 40.0 *)
     S754_finite false 8444249301319680 (-47);     (* 60.0 *)
     S754_finite false 5629499534213120 (-46);     (* 80.0 *)
     S754_finite false 7036874417766400 (-46)].    (* 100.0 *)
Proof. vm_compute. reflexivity. Qed.

Example prepare_questions_rng0 :
  match _prepare_questions rng0 with
  | Ok qs => (λ qu : string * question, (qu.1, len (keywords qu.2))) <$> qs
  | Raise _ => []
  end
  = [("Technical", 2); ("HR", 4); ("Technical", 3); ("HR", 3); ("Technical", 4)].
Proof. vm_compute. reflexivity. Qed.

Lemma demo_first_reachable : reachable demo_first.
Proof. apply (demo_run_reachable []). vm_compute. reflexivity. Qed.

Lemma demo_second_reachable : reachable demo_second.
Proof.
  apply (demo_run_reachable [Next "Lists are mutable"]). vm_compute. reflexivity.
Qed.

Lemma demo_summary_reachable : reachable demo_summary.
Proof.
  apply (demo_run_reachable
           [Next "Lists are mutable";
            Next "I am a student with project experience";
            Next ""; Next ""; Next ""]).
  vm_compute. reflexivity.
Qed.

(** With no keywords nothing can match: the first case of the feedback
    applies. *)
Lemma feedback_no_keywords_not_excellent :
  (evaluate_answer "anything" []).1.1 = len (@nil string)
  ∧ (evaluate_answer "anything" []).1.2 = FB_NEEDS_IMPROVEMENT
  ∧ (evaluate_answer "anything" []).1.2 ≠ FB_EXCELLENT.
Proof. split_and!; [reflexivity | reflexivity | discriminate]. Qed.

Lemma feedback_tier_by_match_count_witness :
  ["mutable"; "immutable"] ≠ []
  ∧ ((evaluate_answer "Lists are mutable, tuples are immutable."
                      ["mutable"; "immutable"]).1.2 = FB_EXCELLENT
     ↔ (evaluate_answer "Lists are mutable, tuples are immutable."
                        ["mutable"; "immutable"]).1.1
       = len ["mutable"; "immutable"]).
Proof.
  assert (["mutable"; "immutable"] ≠ []) as Hne by discriminate.
  split; [exact Hne |].
  destruct (feedback_tier_by_match_count
              "Lists are mutable, tuples are immutable." ["mutable"; "immutable"])
    as (_ & _ & _ & _ & Hnonempty).
  exact (proj1 (proj2 (Hnonempty Hne))).
Defined.

(** The first step of the demo session keeps its question list. *)
Lemma session_list_round_robin_witness :
  reachable demo_first
  ∧ run (Next "Lists are mutable") demo_first = Ok demo_second
  ∧ questions demo_second = questions demo_first.
Proof.
  assert (run (Next "Lists are mutable") demo_first = Ok demo_second) as Hrun
    by (vm_compute; reflexivity).
  split; [exact demo_first_reachable |]. split; [exact Hrun |].
  exact (proj2 (proj2 (proj2 session_list_round_robin))
           demo_first (Next "Lists are mutable") demo_second
           demo_first_reachable Hrun).
Defined.

Lemma summary_totals_add_up_witness :
  reachable demo_summary
  ∧ ∃ section_wise, summary_totals demo_summary = Ok (4, 16, section_wise)
                    ∧ sum (score <$> section_wise.*2) = 4
                    ∧ sum (possible <$> section_wise.*2) = 16.
Proof.
  split; [exact demo_summary_reachable |].
  destruct (summary_totals_add_up demo_summary demo_summary_reachable)
    as (sw & s' & Htot & _ & _ & Hsc & Hpo & _).
  exists sw. split; [exact Htot |]. split; [exact Hsc | exact Hpo].
Defined.

(** From the summary position of the demo session [prev_slide] returns
    to the last question, and the Previous button is enabled there. *)
Lemma summary_prev_goes_back :
  reachable demo_summary
  ∧ current_idx demo_summary = N demo_summary
  ∧ btn_prev demo_summary = true
  ∧ ∃ s', prev_slide demo_summary = Ok s'
          ∧ current_idx s' = N demo_summary - 1.
Proof.
  split; [exact demo_summary_reachable |].
  split; [reflexivity |]. split; [reflexivity |].
  eexists. split; [vm_compute; reflexivity | reflexivity].
Qed.

Lemma summary_allows_previous_witness :
  reachable demo_summary
  ∧ current_idx demo_summary = N demo_summary
  ∧ btn_next demo_summary = false
  ∧ ∃ s', prev_slide demo_summary = Ok s' ∧ current_idx s' = 4.
Proof.
  assert (current_idx demo_summary = N demo_summary) as Hsum by reflexivity.
  split; [exact demo_summary_reachable |]. split; [exact Hsum |].
  destruct (summary_allows_previous demo_summary demo_summary_reachable Hsum)
    as (_ & _ & Hnext & _ & s' & Hprev & Hidx & _).
  split; [exact Hnext |]. exists s'. split; [exact Hprev | exact Hidx].
Defined.

(** Asking for five technical questions out of three returns three. *)
Lemma sample_beyond_catalog_succeeds :
  len TECHNICAL_QUESTIONS < 5
  ∧ ∃ picked, sample rng0 TECHNICAL_QUESTIONS 5 = Ok picked ∧ len picked = 3.
Proof. split; [reflexivity |]. eexists. split; reflexivity. Qed.

Lemma sample_clamps_to_catalog_witness :
  0 ≤ 5
  ∧ ∃ picked rest, sample rng0 HR_QUESTIONS 5 = Ok picked
                   ∧ len picked = 3 ∧ picked ++ rest ≡ₚ HR_QUESTIONS.
Proof.
  assert (0 ≤ 5) as H5 by lia. split; [exact H5 |].
  destruct (sample_clamps_to_catalog rng0 HR_QUESTIONS 5 H5)
    as (picked & rest & Hs & Hlen & Hperm & _).
  exists picked, rest. split; [exact Hs |]. split; [exact Hlen | exact Hperm].
Defined.

Lemma submit_overwrites_witness :
  reachable demo_second
  ∧ current_idx demo_second < N demo_second
  ∧ ∃ s1 s2, evaluate_current "draft" demo_second = Ok s1
             ∧ evaluate_current "I am a student" s1 = Ok s2
             ∧ answer_record s2 1
               = Some ("I am a student", 1, FB_GOOD, "Matched keywords: student").
Proof.
  assert (current_idx demo_second < N demo_second) as Hact by reflexivity.
  split; [exact demo_second_reachable |]. split; [exact Hact |].
  destruct (submit_overwrites demo_second "draft" "I am a student"
              demo_second_reachable Hact)
    as (sect & qdata & s1 & s2 & Hq & H1 & H2 & Hrec & _).
  exists s1, s2. split; [exact H1 |]. split; [exact H2 |].
  assert (qdata = {| q := "Tell me about yourself.";
                     keywords := ["student"; "experience"; "project"; "goal"] |})
    as Hqd by (vm_compute in Hq; congruence).
  rewrite Hqd in Hrec. exact Hrec.
Defined.

Lemma navigation_keeps_bounds_witness :
  reachable demo_first
  ∧ 0 ≤ current_idx demo_first ≤ N demo_first
  ∧ prev_slide demo_first = Ok demo_first.
Proof.
  split; [exact demo_first_reachable |].
  destruct (navigation_keeps_bounds demo_first demo_first_reachable)
    as ((Hidx & _ & _) & _ & Hprev & _).
  split; [exact Hidx |]. apply Hprev. reflexivity.
Defined.




(** A submission in the summary position of the demo session returns
    normally, the state as it was. *)
Lemma submit_in_summary_returns :
  reachable demo_summary
  ∧ current_idx demo_summary = N demo_summary
  ∧ evaluate_current "a late answer" demo_summary = Ok demo_summary.
Proof.
  split; [exact demo_summary_reachable |]. split; reflexivity.
Qed.

Lemma invalid_calls_are_silent_witness :
  reachable demo_summary
  ∧ current_idx demo_summary = N demo_summary
  ∧ evaluate_current "too late" demo_summary = Ok demo_summary.
Proof.
  split; [exact demo_summary_reachable |]. split; [reflexivity |].
  apply (invalid_calls_are_silent demo_summary "too late" demo_summary_reachable).
  reflexivity.
Defined.

(** ** Instances of the further properties *)

Lemma empty_answer_matches_only_empty_keywords_witness :
  lower "" = ""
  ∧ evaluate_answer "" ["mutable"; "immutable"] = (0, FB_NEEDS_IMPROVEMENT, []).
Proof.
  assert (lower "" = "") as Hl by reflexivity. split; [exact Hl |].
  apply (empty_answer_matches_only_empty_keywords "" ["mutable"; "immutable"] Hl).
  repeat constructor; discriminate.
Defined.

Lemma empty_keyword_always_matches_witness :
  lower "" = "" ∧ "" ∈ ["log"; ""]
  ∧ "" ∈ (evaluate_answer "no idea" ["log"; ""]).2.
Proof.
  assert (lower "" = "") as Hl by reflexivity.
  assert ("" ∈ ["log"; ""]) as Hin by (by apply (bool_decide_unpack _)).
  split; [exact Hl |]. split; [exact Hin |].
  exact (proj1 (empty_keyword_always_matches "no idea" "" ["log"; ""] Hl Hin)).
Defined.

Lemma longer_answer_matches_more_witness :
  substring_of (lower "mutable") (lower "Lists are mutable")
  ∧ (evaluate_answer "mutable" ["mutable"; "immutable"]).1.1
    ≤ (evaluate_answer "Lists are mutable" ["mutable"; "immutable"]).1.1.
Proof.
  assert (substring_of (lower "mutable") (lower "Lists are mutable")) as Hsub
    by (exists "lists are ", ""; reflexivity).
  split; [exact Hsub |].
  exact (proj2 (longer_answer_matches_more "mutable" "Lists are mutable"
                  ["mutable"; "immutable"] Hsub)).
Defined.

Lemma contained_keyword_matches_witness :
  substring_of (lower "log") (lower "logarithmic")
  ∧ "log" ∈ (evaluate_answer "It is logarithmic"
                             ["log"; "logarithmic"; "O(log n)"]).2.
Proof.
  assert (substring_of (lower "log") (lower "logarithmic")) as Hsub
    by (exists "", "arithmic"; reflexivity).
  split; [exact Hsub |].
  apply (contained_keyword_matches "It is logarithmic" "log" "logarithmic"
           ["log"; "logarithmic"; "O(log n)"] Hsub);
    by apply (bool_decide_unpack _).
Defined.

Lemma start_needs_a_question_witness :
  two_questions ≠ []
  ∧ ∃ s, start two_questions = Ok s ∧ current_idx s = 0 ∧ btn_prev s = false.
Proof.
  assert (two_questions ≠ []) as Hne by discriminate. split; [exact Hne |].
  destruct (proj2 (start_needs_a_question two_questions) Hne)
    as (s & Hs & _ & Hi & _ & _ & _ & Hp & _).
  exists s. split; [exact Hs |]. split; [exact Hi | exact Hp].
Defined.

Lemma slides_stay_laid_out_witness :
  reachable demo_summary ∧ len (slides demo_summary) = N demo_summary.
Proof.
  split; [exact demo_summary_reachable |].
  exact (proj1 (slides_stay_laid_out demo_summary demo_summary_reachable)).
Defined.

Lemma buttons_follow_position_witness :
  reachable demo_first
  ∧ (btn_prev demo_first = true ↔ 0 < current_idx demo_first).
Proof.
  split; [exact demo_first_reachable |].
  exact (proj1 (buttons_follow_position demo_first demo_first_reachable)).
Defined.

Lemma stored_records_are_evaluations_witness :
  reachable demo_second
  ∧ ∀ i sect qd a m sl,
      questions demo_second !! i = Some (sect, qd) →
      answers demo_second !! i = Some a →
      scores demo_second !! i = Some m → slides demo_second !! i = Some sl →
      (a = "" ∧ m = 0 ∧ fb_var sl = "" ∧ hint_var sl = "")
      ∨ (m = (evaluate_answer a (keywords qd)).1.1
         ∧ fb_var sl = (evaluate_answer a (keywords qd)).1.2
         ∧ hint_var sl = hint_text (evaluate_answer a (keywords qd)).2).
Proof.
  split; [exact demo_second_reachable |].
  exact (stored_records_are_evaluations demo_second demo_second_reachable).
Defined.

Lemma scores_within_possible_witness :
  reachable demo_summary
  ∧ 0 ≤ sum (scores demo_summary)
    ≤ sum ((λ qu, len (keywords qu.2)) <$> questions demo_summary).
Proof.
  split; [exact demo_summary_reachable |].
  exact (proj2 (scores_within_possible demo_summary demo_summary_reachable)).
Defined.

Lemma next_slide_evaluates_first_witness :
  reachable demo_first ∧ current_idx demo_first < N demo_first
  ∧ ∃ s', next_slide "Lists are mutable" demo_first = Ok s'
          ∧ answers s' !! 0%nat = Some "Lists are mutable"
          ∧ current_idx s' = 1.
Proof.
  assert (current_idx demo_first < N demo_first) as Hact by reflexivity.
  split; [exact demo_first_reachable |]. split; [exact Hact |].
  destruct (next_slide_evaluates_first demo_first "Lists are mutable"
              demo_first_reachable Hact)
    as (s1 & s' & _ & Hn & _ & _ & _ & _ & Ha & _ & Hi).
  exists s'. split; [exact Hn |]. split; [exact Ha | exact Hi].
Defined.

Lemma prev_slide_only_moves_witness :
  reachable demo_second
  ∧ ∃ s', prev_slide demo_second = Ok s' ∧ current_idx s' = 0
          ∧ answers s' = answers demo_second.
Proof.
  split; [exact demo_second_reachable |].
  destruct (prev_slide_only_moves demo_second demo_second_reachable)
    as (s' & Hp & Hi & _ & Ha & _).
  exists s'. split; [exact Hp |]. split; [exact Hi | exact Ha].
Defined.

Lemma next_then_prev_returns_witness :
  reachable demo_second ∧ current_idx demo_second < N demo_second
  ∧ ∃ s1 s2, next_slide "I am a student" demo_second = Ok s1
             ∧ prev_slide s1 = Ok s2 ∧ current_idx s2 = 1.
Proof.
  assert (current_idx demo_second < N demo_second) as Hact by reflexivity.
  split; [exact demo_second_reachable |]. split; [exact Hact |].
  destruct (next_then_prev_returns demo_second "I am a student"
              demo_second_reachable Hact)
    as (s1 & s2 & Hn & Hp & Hi & _).
  exists s1, s2. split; [exact Hn |]. split; [exact Hp | exact Hi].
Defined.

Lemma repeated_next_reaches_summary_witness :
  reachable demo_second
  ∧ ∃ s', run_all (Next <$> ["a"; "b"; "c"; "d"; "e"; "f"]) demo_second = Ok s'
          ∧ current_idx s' = 5.
Proof.
  split; [exact demo_second_reachable |].
  destruct (repeated_next_reaches_summary demo_second
              ["a"; "b"; "c"; "d"; "e"; "f"] demo_second_reachable)
    as (s' & Hr & Hi & _).
  exists s'. split; [exact Hr | exact Hi].
Defined.

Lemma repeated_prev_stops_at_first_witness :
  reachable demo_summary
  ∧ ∃ s', run_all (replicate 7 Prev) demo_summary = Ok s'
          ∧ current_idx s' = 0 ∧ scores s' = scores demo_summary.
Proof.
  split; [exact demo_summary_reachable |].
  destruct (repeated_prev_stops_at_first demo_summary 7 demo_summary_reachable)
    as (s' & Hr & Hi & _ & Hsc & _).
  exists s'. split; [exact Hr |]. split; [exact Hi | exact Hsc].
Defined.

Lemma next_slide_at_summary_is_identity_witness :
  reachable demo_summary ∧ current_idx demo_summary = N demo_summary
  ∧ next_slide "ignored" demo_summary = Ok demo_summary.
Proof.
  assert (current_idx demo_summary = N demo_summary) as Hsum by reflexivity.
  split; [exact demo_summary_reachable |]. split; [exact Hsum |].
  exact (next_slide_at_summary_is_identity demo_summary "ignored"
           demo_summary_reachable Hsum).
Defined.

Lemma submit_twice_same_text_witness :
  reachable demo_second ∧ current_idx demo_second < N demo_second
  ∧ ∃ s1 s2, evaluate_current "goal" demo_second = Ok s1
             ∧ evaluate_current "goal" s1 = Ok s2
             ∧ answers s2 = answers s1 ∧ scores s2 = scores s1.
Proof.
  assert (current_idx demo_second < N demo_second) as Hact by reflexivity.
  split; [exact demo_second_reachable |]. split; [exact Hact |].
  destruct (submit_twice_same_text demo_second "goal" demo_second_reachable Hact)
    as (s1 & s2 & shown & H1 & H2 & Ha & Hsc & _).
  exists s1, s2. split; [exact H1 |]. split; [exact H2 |].
  split; [exact Ha | exact Hsc].
Defined.

Lemma section_tallies_cover_sections_witness :
  reachable demo_summary
  ∧ ∃ tot sw, summary_totals demo_summary = Ok (tot, sw) ∧ NoDup sw.*1.
Proof.
  split; [exact demo_summary_reachable |].
  destruct (section_tallies_cover_sections demo_summary demo_summary_reachable)
    as (tot & sw & Ht & Hnd & _).
  exists tot, sw. split; [exact Ht | exact Hnd].
Defined.
